(** * HoloPy fitting models: parameter binder and Model

    A shallow embedding of [holopy/fitting/model.py]:
    - [tied_name], the name synthesized for a group of tied parameters;
    - [ParameterizedObject] (the parameter binder): [__init__] with its inner
      [add_par], [guess] and [make_from];
    - [BaseModel] and [Model]: [_use_parameter], [get_parameter],
      [_optics_scatterer], [_calc] and [residual];
    - the [limit_overlaps] constraint.

    Python objects are values of one dynamically typed universe [pyobj];
    [isinstance] tests are pattern matches.  Object identity ([is]) of Prior
    objects is an explicit identity field.  Exceptions are the [Err] results of
    an error monad.  Lists and dicts that the code shares and mutates live in
    explicit stores, addressed by location. *)

From Stdlib Require Import Ascii.
From Stdlib Require String.
From Stdlib Require Import QArith.
From stdpp Require Import base list strings gmap.

Local Open Scope Z_scope.

(** ** Exceptions and results *)

Inductive exn : Type :=
| KeyError (key : string)
| AttributeError (attr : string)
| TypeError
| MissingParameter (name : string)
| ParameterSpecificationError (msg : string)
| IndexError
| ValueError
| RecursionError
| Raised (tag : nat).

Inductive result (A : Type) : Type :=
| Ok (a : A)
| Err (e : exn).
Arguments Ok {A} a.
Arguments Err {A} e.

Global Instance result_ret : MRet result := fun A a => Ok a.
Global Instance result_bind : MBind result := fun A B k r =>
  match r with
  | Ok a => k a
  | Err e => Err e
  end.

(** ** Strings *)

Definition chars (s : string) : list ascii := String.list_ascii_of_string s.
Definition unchars (l : list ascii) : string := String.string_of_list_ascii l.

(** [os.path.commonprefix] on a list of two strings: the longest common
    prefix, character by character. *)
Fixpoint commonprefix (a b : list ascii) : list ascii :=
  match a, b with
  | x :: a', y :: b' => if decide (x = y) then x :: commonprefix a' b' else []
  | _, _ => []
  end.

(** [str.lstrip(cs)], [str.rstrip(cs)] and [str.strip(cs)]. *)
Fixpoint lstrip (cs : list ascii) (s : list ascii) : list ascii :=
  match s with
  | c :: s' => if decide (c ∈ cs) then lstrip cs s' else s
  | [] => []
  end.
Definition rstrip (cs s : list ascii) : list ascii :=
  reverse (lstrip cs (reverse s)).
Definition strip (cs s : list ascii) : list ascii := rstrip cs (lstrip cs s).

(** [commonprefix([name1[::-1], name2[::-1]])[::-1]] *)
Definition common_suffix (name1 name2 : string) : list ascii :=
  reverse (commonprefix (reverse (chars name1)) (reverse (chars name2))).

(** [def tied_name(name1, name2)] *)
Definition tied_name (name1 name2 : string) : string :=
  unchars (strip (chars ":_") (common_suffix name1 name2)).

(** ** Python objects *)

(** Object identity.  [Obj n] is an object supplied by the caller;
    [CopyOf e i] is the copy of object [i] made by the [deepcopy] call number
    [e]: copies made by one call are new objects, and two objects are copied
    to one object exactly when they are the same object.  A copy is new
    with respect to the objects that exist when its call is made, those of
    [made_before] below; the calls are numbered by the lists of the store,
    of which each construction of a binder allocates one. *)
Inductive ident : Type :=
| Obj (n : nat)
| CopyOf (epoch : nat) (i : ident).

Global Instance ident_eq_dec : EqDecision ident.
Proof. solve_decision. Defined.

(** The values the fitting code handles.  The classes [Prior], [Fixed] and
    [ComplexPrior] of [holopy.inference.prior] are as the specification
    describes them: [PyPrior i fixed guess name] is a Prior with its guess and
    its name ([None] until it is bound), an instance of the subclass [Fixed]
    when [fixed] is true; [PyComplexPrior i real imag name] is a ComplexPrior
    with its two parts.  [PyArray dims items] is an [xr.DataArray]: when it
    has one dimension, [items] lists its coordinate labels with the element
    selected by each.  [PyNum] is a number, its value idealized as a rational;
    [PyCplx re im] is the number [re + 1j * im]; [PyOther] is any other
    object.  The keys of dicts and the labels of arrays are strings: a dict
    or an array with a key or label that is not a string, on which the code
    raises [TypeError] where it builds a name from it, is not a value of this
    type, and nothing is stated about it. *)
#[warnings="-register-all"]
Inductive pyobj : Type :=
| PyNone
| PyNum (x : Q)
| PyStr (s : string)
| PyCplx (re im : pyobj)
| PyList (items : list pyobj)
| PyDict (items : list (string * pyobj))
| PyArray (dims : list string) (items : list (string * pyobj))
| PyPrior (id : ident) (fixed : bool) (guess : Q) (name : option string)
| PyComplexPrior (id : ident) (real imag : pyobj) (name : option string)
| PyOther (tag : nat).

(** Modelled from the spec: the class hierarchy of [holopy.inference.prior],
    where [Fixed] and [ComplexPrior] are variants of [Prior].
    [isinstance(o, Prior)]: *)
Definition is_Prior (o : pyobj) : bool :=
  match o with
  | PyPrior _ _ _ _ | PyComplexPrior _ _ _ _ => true
  | _ => false
  end.

(** Modelled from the spec: [Fixed] is the variant of [Prior] that holds a
    constant.  [isinstance(o, Fixed)]: *)
Definition is_Fixed (o : pyobj) : bool :=
  match o with
  | PyPrior _ fixed _ _ => fixed
  | _ => false
  end.

Definition ident_of (o : pyobj) : option ident :=
  match o with
  | PyPrior i _ _ _ | PyComplexPrior i _ _ _ => Some i
  | _ => None
  end.

(** [a is b], for Prior objects *)
Definition same_object (a b : pyobj) : bool :=
  match ident_of a, ident_of b with
  | Some i, Some j => bool_decide (i = j)
  | _, _ => false
  end.

(** [o.name = name] *)
Definition set_name (name : string) (o : pyobj) : pyobj :=
  match o with
  | PyPrior i f g _ => PyPrior i f g (Some name)
  | PyComplexPrior i re im _ => PyComplexPrior i re im (Some name)
  | _ => o
  end.

Definition name_of (o : pyobj) : option string :=
  match o with
  | PyPrior _ _ _ n | PyComplexPrior _ _ _ n => n
  | _ => None
  end.

(** [copy.deepcopy], as done by the call number [e]: every object reached is
    replaced by its copy. *)
Fixpoint deepcopy (e : nat) (o : pyobj) : pyobj :=
  match o with
  | PyCplx re im => PyCplx (deepcopy e re) (deepcopy e im)
  | PyList items => PyList (map (deepcopy e) items)
  | PyDict items => PyDict (map (fun kv => (kv.1, deepcopy e kv.2)) items)
  | PyArray dims items =>
      PyArray dims (map (fun kv => (kv.1, deepcopy e kv.2)) items)
  | PyPrior i f g n => PyPrior (CopyOf e i) f g n
  | PyComplexPrior i re im n =>
      PyComplexPrior (CopyOf e i) (deepcopy e re) (deepcopy e im) n
  | _ => o
  end.


(** ** Insertion-ordered dicts *)

(** A Python [dict] with string keys whose iteration order matters is an
    association list in insertion order, without repeated keys. *)
Abbreviation dict V := (list (string * V)) (only parsing).

Fixpoint dict_get {V} (d : dict V) (k : string) : option V :=
  match d with
  | [] => None
  | (k', v) :: d' => if decide (k = k') then Some v else dict_get d' k
  end.

(** [d[k] = v]: in place when the key exists, at the end otherwise. *)
Fixpoint dict_set {V} (d : dict V) (k : string) (v : V) : dict V :=
  match d with
  | [] => [(k, v)]
  | (k', v') :: d' =>
      if decide (k = k') then (k, v) :: d' else (k', v') :: dict_set d' k v
  end.

Definition dict_keys {V} (d : dict V) : list string := d.*1.

(** [sorted(items, key=lambda x: x[0])]: a stable sort on the names. *)
Fixpoint insert_by_name {V} (x : string * V) (l : dict V) : dict V :=
  match l with
  | [] => [x]
  | y :: l' =>
      if String.leb x.1 y.1 then x :: l else y :: insert_by_name x l'
  end.
Definition sorted_by_name {V} (l : dict V) : dict V :=
  foldr insert_by_name [] l.

(** Run a fallible function over the values of a dict, left to right. *)
Fixpoint dict_mapM {V W} (f : string → V → result W) (d : dict V)
  : result (dict W) :=
  match d with
  | [] => Ok []
  | (k, v) :: d' =>
      w ← f k v;
      rest ← dict_mapM f d';
      Ok ((k, w) :: rest)
  end.

(** ** Stores *)

(** Mutable lists and dicts are held in stores and named by their location;
    a new object is allocated at the end of its store. *)
Abbreviation loc := nat (only parsing).

(** The store of the list objects built at construction time. *)
Abbreviation lstore := (list (list pyobj)) (only parsing).

(** ** The parameter binder: [class ParameterizedObject] *)

Module ParameterizedObject.

(** The locals [parameters], [names] and [ties] of [__init__], which its
    inner function [add_par] updates. *)
Record locals : Type := Locals {
  parameters : list pyobj;
  names : list string;
  ties : dict (list string);
}.

Definition empty : locals := Locals [] [] [].

(** [for i, par_check in enumerate(parameters + [None]): if p is par_check:
    break]: the position of the first registered parameter that is the
    object [p]; [None] when the loop ends on the trailing [None]. *)
Fixpoint find_identical (p : pyobj) (registered : list pyobj) : option nat :=
  match registered with
  | [] => None
  | q :: rest =>
      if same_object p q then Some 0%nat else S <$> find_identical p rest
  end.

(** [def add_par(p, name)].  A [p] that is not a Prior is wrapped as
    [Fixed(p)]: a new object, identical to no registered one, and not
    appended because it is Fixed.  [names[i]] is in range because [names]
    and [parameters] grow together. *)
Definition add_par (st : locals) (p : pyobj) (name : string) : locals :=
  if negb (is_Prior p) then st
  else
    match find_identical p (parameters st) with
    | Some i =>
        let old := names st !!! i in
        let new_name := tied_name old name in
        let group :=
          match dict_get (ties st) new_name with
          | Some group => group
          | None => [old]
          end in
        Locals (parameters st)
               (<[i := new_name]> (names st))
               (dict_set (ties st) new_name (group ++ [name]))
    | None =>
        if is_Fixed p then st
        else Locals (parameters st ++ [p]) (names st ++ [name]) (ties st)
    end.

Definition multi_dim_msg : string :=
  "Multi-dimensional parameters are not supported".

(** The body of [for name, par in sorted_parameters]. *)
Definition visit (st : locals) (item : string * pyobj) : result locals :=
  let (name, par) := item in
  match par with
  | PyComplexPrior _ real imag _ =>
      let st := add_par st real (name +:+ ".real") in
      Ok (add_par st imag (name +:+ ".imag"))
  | PyDict items =>
      Ok (foldl (fun st kv => add_par st kv.2 (name +:+ "_" +:+ kv.1))
                st items)
  | PyArray dims items =>
      if decide (length dims = 1%nat) then
        Ok (foldl (fun st kv => add_par st kv.2 (name +:+ "_" +:+ kv.1))
                  st items)
      else Err (ParameterSpecificationError multi_dim_msg)
  | PyPrior _ _ _ _ => Ok (add_par st par name)
  | _ => Ok st
  end.

Fixpoint visit_all (st : locals) (items : dict pyobj) : result locals :=
  match items with
  | [] => Ok st
  | item :: rest => st' ← visit st item; visit_all st' rest
  end.

(** The traversal of [__init__], up to the deep copy. *)
Definition scan (obj_parameters : dict pyobj) : result locals :=
  visit_all empty (sorted_by_name obj_parameters).

(** [for i, name in enumerate(names): parameters[i].name = name], from
    position [i] on. *)
Fixpoint assign_names (i : nat) (names : list string) (ps : list pyobj)
  : list pyobj :=
  match names with
  | [] => ps
  | name :: rest => assign_names (S i) rest (alter (set_name name) i ps)
  end.

(** [parameters = deepcopy(parameters)], then the names are assigned. *)
Definition named_copies (e : nat) (st : locals) : list pyobj :=
  assign_names 0 (names st) (deepcopy e <$> parameters st).

Section with_scatterer.
(** [R] is the type of concrete scatterers, as [from_parameters] makes
    them. *)
Context {R : Type}.

(** A scatterer description: what its [parameters] property returns (a
    dict built anew on every access) and its [from_parameters]. *)
Record scatterer : Type := Scatterer {
  sc_parameters : dict pyobj;
  from_parameters : gmap string pyobj → result R;
}.

(** An instance: [self.obj], [self.parameters] (the location of the list)
    and [self.ties]. *)
Record t : Type := Binder {
  obj : scatterer;
  self_parameters : loc;
  self_ties : dict (list string);
}.

(** [def __init__(self, obj)] *)
Definition init (o : scatterer) (h : lstore) : result (t * lstore) :=
  st ← scan (sc_parameters o);
  let l := length h in
  Ok (Binder o l (ties st), h ++ [named_copies l st]).

(** Modelled from the spec: the [guess] attribute of the classes of
    [holopy.inference.prior].  A Prior holds its guess; the guess of a
    ComplexPrior is the complex number made of the guesses of its parts;
    no other object has the attribute. *)
Fixpoint guess_of (o : pyobj) : result pyobj :=
  match o with
  | PyPrior _ _ g _ => Ok (PyNum g)
  | PyComplexPrior _ re im _ =>
      g1 ← guess_of re; g2 ← guess_of im; Ok (PyCplx g1 g2)
  | _ => Err (AttributeError "guess")
  end.

(** [def get_val(par, name)], inner function of [make_from] *)
Definition resolve (tie_groups : dict (list string)) (name : string)
  : string :=
  foldl (fun name '(groupname, group) =>
           if decide (name ∈ group) then groupname else name)
        name tie_groups.

Definition get_val (tie_groups : dict (list string))
    (values : gmap string pyobj) (par : pyobj) (name : string)
  : result pyobj :=
  if negb (is_Prior par) then Ok par
  else
    match par with
    | PyPrior _ true g _ => Ok (PyNum g)
    | _ =>
        let name := resolve tie_groups name in
        match values !! name with
        | Some v => Ok v
        | None => Err (KeyError name)
        end
    end.

(** The value [par_val] that [make_from] computes for one item.  For a
    ComplexPrior the two parts are combined whatever they are; the code
    raises [TypeError] there for a part that is not a number. *)
Definition par_val (tie_groups : dict (list string))
    (values : gmap string pyobj) (name : string) (par : pyobj)
  : result pyobj :=
  match par with
  | PyComplexPrior _ real imag _ =>
      re ← get_val tie_groups values real (name +:+ ".real");
      im ← get_val tie_groups values imag (name +:+ ".imag");
      Ok (PyCplx re im)
  | PyDict items =>
      vals ← dict_mapM (fun key val =>
                 get_val tie_groups values val (name +:+ "_" +:+ key))
               items;
      Ok (PyDict vals)
  | PyArray dims items =>
      match dims with
      | [] => Err IndexError
      | _ =>
          vals ← dict_mapM (fun key val =>
                     get_val tie_groups values val (name +:+ "_" +:+ key))
                   items;
          Ok (PyArray dims vals)
      end
  | PyPrior _ _ _ _ => get_val tie_groups values par name
  | _ => Ok par
  end.

(** The dict [obj_pars] that [make_from] hands to [from_parameters]. *)
Fixpoint obj_pars_from (tie_groups : dict (list string))
    (values : gmap string pyobj) (items : dict pyobj)
    (obj_pars : gmap string pyobj) : result (gmap string pyobj) :=
  match items with
  | [] => Ok obj_pars
  | (name, par) :: rest =>
      v ← par_val tie_groups values name par;
      let obj_pars :=
        match dict_get tie_groups name with
        | Some group =>
            foldl (fun acc tied => <[tied := v]> acc) obj_pars group
        | None => <[name := v]> obj_pars
        end in
      obj_pars_from tie_groups values rest obj_pars
  end.

Definition obj_pars (self : t) (values : gmap string pyobj)
  : result (gmap string pyobj) :=
  obj_pars_from (self_ties self) values (sc_parameters (obj self)) ∅.

(** [def make_from(self, parameters)] *)
Definition make_from (self : t) (values : gmap string pyobj) : result R :=
  op ← obj_pars self values;
  from_parameters (obj self) op.

(** The loop of the [guess] property over [list(pars.keys())]. *)
Definition guess_step (pars : result (gmap string pyobj)) (key : string)
  : result (gmap string pyobj) :=
  pars ← pars;
  match pars !! key with
  | Some (PyComplexPrior _ real imag _) =>
      g1 ← guess_of real;
      let pars := <[key +:+ ".real" := g1]> pars in
      g2 ← guess_of imag;
      Ok (<[key +:+ ".imag" := g2]> pars)
  | Some (PyPrior _ _ g _) => Ok (<[key := PyNum g]> pars)
  | _ => Ok pars
  end.

Definition guess_pars (items : dict pyobj) : result (gmap string pyobj) :=
  foldl guess_step (Ok (list_to_map items)) (dict_keys items).

(** [def guess(self)] (a property); [self.obj.parameters] is a new dict, so
    that the scatterer is not changed. *)
Definition guess (self : t) : result R :=
  pars ← guess_pars (sc_parameters (obj self));
  make_from self pars.

End with_scatterer.
Arguments scatterer : clear implicits.
Arguments t : clear implicits.

End ParameterizedObject.

(** ** Arrays of floats *)

(** A float is a finite number or one of the special values.  The finite
    numbers are idealized as rationals: rounding and overflow are left out;
    the arithmetic of the special values is the one of IEEE 754. *)
Inductive xfloat : Type :=
| Fin (x : Q)
| PInf
| NInf
| NaN.

(** [a - b] *)
Definition fsub (a b : xfloat) : xfloat :=
  match a, b with
  | NaN, _ | _, NaN => NaN
  | PInf, PInf => NaN
  | PInf, _ => PInf
  | NInf, NInf => NaN
  | NInf, _ => NInf
  | Fin _, PInf => NInf
  | Fin _, NInf => PInf
  | Fin x, Fin y => Fin (Qminus x y)
  end.

(** [a * b] *)
Definition fmul (a b : xfloat) : xfloat :=
  let sign_inf (x : Q) (pos : bool) : xfloat :=
    match Qcompare x (inject_Z 0) with
    | Eq => NaN
    | Gt => if pos then PInf else NInf
    | Lt => if pos then NInf else PInf
    end in
  match a, b with
  | NaN, _ | _, NaN => NaN
  | Fin x, Fin y => Fin (Qmult x y)
  | Fin x, PInf | PInf, Fin x => sign_inf x true
  | Fin x, NInf | NInf, Fin x => sign_inf x false
  | PInf, PInf | NInf, NInf => PInf
  | PInf, NInf | NInf, PInf => NInf
  end.

(** [a <= b] on floats: false as soon as one side is NaN. *)
Definition fle (a b : xfloat) : bool :=
  match a, b with
  | NaN, _ | _, NaN => false
  | NInf, _ | _, PInf => true
  | _, NInf | PInf, _ => false
  | Fin x, Fin y => Qle_bool x y
  end.

Record ndarray : Type := NdArray {
  shape : list nat;
  data : list xfloat;
}.

(** The observed data, also used as the schema: its values and the attributes
    that [hasattr] and [getattr] find on it. *)
Record DataArray : Type := MkDataArray {
  da_attrs : gmap string pyobj;
  da_values : ndarray;
}.

(** [np.ones_like(schema)] *)
Definition ones_like (schema : DataArray) : ndarray :=
  NdArray (shape (da_values schema))
          ((fun _ => Fin (inject_Z 1)) <$> data (da_values schema)).

(** [a * x] for an array [a] and a float [x] *)
Definition scale (a : ndarray) (x : xfloat) : ndarray :=
  NdArray (shape a) ((fun y => fmul y x) <$> data a).

(** [a - b] for arrays of one shape.  Broadcasting between different shapes
    is not modelled: every difference of shapes is reported as the failure
    that numpy reports for shapes it cannot broadcast. *)
Definition arr_sub (a b : ndarray) : result ndarray :=
  if decide (shape a = shape b)
  then Ok (NdArray (shape a) (zip_with fsub (data a) (data b)))
  else Err ValueError.

(** [a.flatten()] *)
Definition flatten (a : ndarray) : ndarray :=
  NdArray [length (data a)] (data a).

(** ** The overlap constraint: [class limit_overlaps] *)

Module limit_overlaps.
Section with_scatterer.
Context {R : Type}.
(** The collaborators [s.largest_overlap()] and [np.min(s.r)]. *)
Context (largest_overlap : R → result xfloat) (min_r : R → result xfloat).

(** [def check(self, s)], for [self.fraction = fraction].  The finite
    floats are rationals here: the product is exact, without the rounding
    and the overflow of the floating-point product. *)
Definition check (fraction : xfloat) (s : R) : result bool :=
  ov ← largest_overlap s;
  r ← min_r s;
  Ok (fle ov (fmul (fmul r (Fin (inject_Z 2))) fraction)).
End with_scatterer.
End limit_overlaps.

(** ** Evaluation state *)

(** One recorded invocation of the scattering calculation [calc_func]. *)
Record call (R : Type) : Type := Call {
  call_schema : DataArray;
  call_scatterer : R;
  call_scaling : pyobj;
  call_theory : pyobj;
  call_optics : dict pyobj;
}.
Arguments Call {R}.

(** The state a residual evaluation works on: the store of the flat
    name-to-value dicts, and the invocations of [calc_func] so far. *)
Record estate (R : Type) : Type := EState {
  dicts : list (gmap string pyobj);
  calls : list (call R);
}.
Arguments EState {R}.
Arguments dicts {R}.
Arguments calls {R}.

(** ** [class BaseModel] *)

Module BaseModel.
Section with_scatterer.
Context {R : Type}.

(** An instance: [self.scatterer], [self.constraints] (each constraint is
    its [check] method), [self._parameters] (the location of the list) and
    [attrs], the attributes that [hasattr] and [getattr] find by name,
    with the objects they are bound to: those of [own_attrs] and those that
    [setattr] creates. *)
Record t : Type := Self {
  scatterer : ParameterizedObject.t R;
  constraints : list (R → result bool);
  parameters : loc;
  attrs : gmap string pyobj;
}.

Definition setattr (self : t) (name : string) (v : pyobj) : t :=
  Self (scatterer self) (constraints self) (parameters self)
       (<[name := v]> (attrs self)).

(** The attributes that [hasattr] and [getattr] find on an instance before
    [_use_parameter] has created any: the ones that [__init__] assigns
    ([scatterer], [constraints], [_parameters]) and the ones that the class
    defines (the property [parameters], which is the list [_parameters]
    itself, and the methods).  Each is bound to an object that is not
    [None]; these objects are opaque here.  What the classes [HoloPyObject]
    and [object] define besides is not in [model.py] and is left out. *)
Definition own_attrs : gmap string pyobj :=
  list_to_map
    [("scatterer", PyOther 1); ("constraints", PyOther 2);
     ("_parameters", PyOther 3); ("parameters", PyOther 3);
     ("get_parameter", PyOther 4); ("_use_parameter", PyOther 5);
     ("_optics_scatterer", PyOther 6)].

(** [par.name], for the Prior object [par] that [_use_parameter] is given.
    [par] is the object as the caller of the constructor holds it.  When the
    object is already in the list [ps] that [self._parameters] holds, it was
    named when it was put there, in place: its name is the one that the
    entry of the list has. *)
Definition current_name (ps : list pyobj) (par : pyobj) : option string :=
  match name_of par with
  | Some n => Some n
  | None =>
      i ← ParameterizedObject.find_identical par ps;
      q ← ps !! i;
      name_of q
  end.

(** The branch [else] of [_use_parameter]: [setattr(self, name, par)],
    and a Prior is named if it has no name and appended to
    [self._parameters].  The attribute and the list entry are the one
    object [par], so both see the name. *)
Definition use_leaf (par : pyobj) (name : string) (self : t) (h : lstore)
  : t * lstore :=
  if is_Prior par then
    let par :=
      match current_name (h !!! parameters self) par with
      | None => set_name name par
      | Some n => set_name n par
      end in
    (setattr self name par,
     alter (fun l => l ++ [par]) (parameters self) h)
  else (setattr self name par, h).

(** [for key, val in items: self._use_parameter(val, name+'_'+key)],
    where [rec] is the recursive call. *)
Fixpoint each_item
    (rec : pyobj → string → t → lstore → result (t * lstore))
    (name : string) (items : dict pyobj) (self : t) (h : lstore)
  : result (t * lstore) :=
  match items with
  | [] => Ok (self, h)
  | (key, val) :: rest =>
      '(self, h) ← rec val (name +:+ "_" +:+ key) self h;
      each_item rec name rest self h
  end.

(** [def _use_parameter(self, par, name)] *)
Fixpoint use_parameter (par : pyobj) (name : string) (self : t)
    (h : lstore) {struct par} : result (t * lstore) :=
  match par with
  | PyDict items =>
      let self :=
        setattr self (name +:+ "_names") (PyList (PyStr <$> items.*1)) in
      each_item (fun val name self h => use_parameter val name self h)
                name items self h
  | PyArray dims items =>
      if decide (length dims = 1%nat) then
        let self :=
          setattr self (name +:+ "_names") (PyList (PyStr <$> items.*1)) in
        each_item (fun val name self h => use_parameter val name self h)
                  name items self h
      else Err (ParameterSpecificationError
                  ParameterizedObject.multi_dim_msg)
  | _ => Ok (use_leaf par name self h)
  end.

(** [def __init__(self, scatterer, medium_index, illum_wavelen,
    illum_polarization, theory, constraints)].  The scatterer is a
    description ([inl]) or already a ParameterizedObject ([inr]);
    [constraints] is the list that [ensure_listlike] returns. *)
Definition init (sc : ParameterizedObject.scatterer R
                      + ParameterizedObject.t R)
    (medium_index illum_wavelen illum_polarization theory : pyobj)
    (cs : list (R → result bool)) (h : lstore) : result (t * lstore) :=
  '(binder, h) ← match sc with
                  | inl o => ParameterizedObject.init o h
                  | inr b => Ok (b, h)
                  end;
  let self :=
    Self binder cs (ParameterizedObject.self_parameters binder) own_attrs in
  '(self, h) ← use_parameter medium_index "medium_index" self h;
  '(self, h) ← use_parameter illum_wavelen "illum_wavelen" self h;
  '(self, h) ← use_parameter illum_polarization "illum_polarization"
                  self h;
  use_parameter theory "theory" self h.

(** What iterating over an object yields. *)
Definition py_iter (o : pyobj) : result (list pyobj) :=
  match o with
  | PyList items => Ok items
  | PyDict items => Ok (PyStr <$> items.*1)
  | PyStr s => Ok ((fun c => PyStr (String c "")) <$> chars s)
  | PyArray _ items => Ok ((fun _ => PyOther 0) <$> items)
  | _ => Err TypeError
  end.

(** [{key: self.get_parameter(name + '_' + key, pars) for key in keys}],
    where [rec] is the recursive call. *)
Fixpoint each_key (rec : string → estate R → result pyobj * estate R)
    (name : string) (keys : list pyobj) (acc : dict pyobj) (st : estate R)
  : result pyobj * estate R :=
  match keys with
  | [] => (Ok (PyDict acc), st)
  | PyStr key :: keys =>
      match rec (name +:+ "_" +:+ key) st with
      | (Ok v, st) => each_key rec name keys (dict_set acc key v) st
      | (Err e, st) => (Err e, st)
      end
  | _ :: _ => (Err TypeError, st)
  end.

(** [def get_parameter(self, name, pars, schema=None)], where [pars] is
    the location of the dict.  The recursion is on names that grow at each
    call; [fuel] bounds its depth. *)
Fixpoint get_parameter_fuel (fuel : nat) (self : t) (name : string)
    (pars : loc) (schema : option DataArray) (st : estate R)
  : result pyobj * estate R :=
  match fuel with
  | O => (Err RecursionError, st)
  | S fuel =>
      let d := dicts st !!! pars in
      match d !! name with
      | Some v =>
          (Ok v, EState (<[pars := delete name d]> (dicts st)) (calls st))
      | None =>
          let non_null_attr :=
            match attrs self !! name with
            | Some PyNone | None => None
            | Some v => Some v
            end in
          match non_null_attr with
          | Some v => (Ok v, st)
          | None =>
              match attrs self !! (name +:+ "_names") with
              | Some names =>
                  match py_iter names with
                  | Ok keys =>
                      each_key
                        (fun n st =>
                           get_parameter_fuel fuel self n pars None st)
                        name keys [] st
                  | Err e => (Err e, st)
                  end
              | None =>
                  match schema with
                  | Some sch =>
                      match da_attrs sch !! name with
                      | Some v => (Ok v, st)
                      | None => (Err (MissingParameter name), st)
                      end
                  | None => (Err (MissingParameter name), st)
                  end
              end
          end
      end
  end.

(** No attribute name is longer than this. *)
Definition name_bound (self : t) : nat :=
  max_list (String.length <$> (map_to_list (attrs self)).*1).

Definition get_parameter (self : t) (name : string) (pars : loc)
    (schema : option DataArray) (st : estate R)
  : result pyobj * estate R :=
  get_parameter_fuel (S (name_bound self)) self name pars schema st.

(** [def _optics_scatterer(self, pars, schema)] *)
Definition optics_scatterer (self : t) (pars : loc)
    (schema : option DataArray) (st : estate R)
  : result (dict pyobj * R) * estate R :=
  match get_parameter self "medium_index" pars schema st with
  | (Err e, st) => (Err e, st)
  | (Ok v1, st) =>
  match get_parameter self "illum_wavelen" pars schema st with
  | (Err e, st) => (Err e, st)
  | (Ok v2, st) =>
  match get_parameter self "illum_polarization" pars schema st with
  | (Err e, st) => (Err e, st)
  | (Ok v3, st) =>
      let optics := [("medium_index", v1); ("illum_wavelen", v2);
                     ("illum_polarization", v3)] in
      match ParameterizedObject.make_from (scatterer self)
              (dicts st !!! pars) with
      | Ok s => (Ok (optics, s), st)
      | Err e => (Err e, st)
      end
  end end end.
End with_scatterer.
Arguments t : clear implicits.
Arguments use_leaf : simpl never.
End BaseModel.

(** ** [class Model(BaseModel)] *)

Module Model.
Section with_scatterer.
Context {R : Type}.

(** An instance: the BaseModel part and [self.calc_func]. *)
Record t : Type := Self {
  base : BaseModel.t R;
  calc_func : DataArray → R → pyobj → pyobj → dict pyobj → result ndarray;
}.

Definition no_parameter_msg : string :=
  "You must specify at least one parameter to vary in a fit".

(** The attributes that [class Model] adds to those of a BaseModel:
    [calc_func], which [__init__] assigns, the properties [guess] and
    [guess_dict] and the methods; the objects they are bound to are opaque
    here. *)
Definition own_attrs : list (string * pyobj) :=
  [("calc_func", PyOther 7); ("guess", PyOther 8); ("guess_dict", PyOther 9);
   ("_calc", PyOther 10); ("residual", PyOther 11)].

(** [__init__] up to the registration of [alpha]. *)
Definition register (sc : ParameterizedObject.scatterer R
                          + ParameterizedObject.t R)
    (f : DataArray → R → pyobj → pyobj → dict pyobj → result ndarray)
    (medium_index illum_wavelen illum_polarization theory alpha : pyobj)
    (cs : list (R → result bool)) (h : lstore) : result (t * lstore) :=
  '(b, h) ← BaseModel.init sc medium_index illum_wavelen
              illum_polarization theory cs h;
  let b := foldl (fun b kv => BaseModel.setattr b kv.1 kv.2) b own_attrs in
  '(b, h) ← BaseModel.use_parameter alpha "alpha" b h;
  Ok (Self b f, h).

(** [def __init__(self, scatterer, calc_func, medium_index,
    illum_wavelen, illum_polarization, theory, alpha, constraints)] *)
Definition init (sc : ParameterizedObject.scatterer R
                      + ParameterizedObject.t R)
    (f : DataArray → R → pyobj → pyobj → dict pyobj → result ndarray)
    (medium_index illum_wavelen illum_polarization theory alpha : pyobj)
    (cs : list (R → result bool)) (h : lstore) : result (t * lstore) :=
  '(self, h) ← register sc f medium_index illum_wavelen
                 illum_polarization theory alpha cs h;
  if decide (length (h !!! BaseModel.parameters (base self)) = 0%nat)
  then Err (ParameterSpecificationError no_parameter_msg)
  else Ok (self, h).

(** [{p.name: p.guess for p in ps}], the dict of the [guess_dict]
    property, for the list [ps], built from left to right on the dict [d]:
    a later parameter of the same name replaces the entry of an earlier
    one.  The names are strings. *)
Fixpoint guess_dict_from (d : gmap string pyobj) (ps : list pyobj)
  : result (gmap string pyobj) :=
  match ps with
  | [] => Ok d
  | p :: ps =>
      match name_of p with
      | Some n =>
          g ← ParameterizedObject.guess_of p;
          guess_dict_from (<[n := g]> d) ps
      | None => Err TypeError
      end
  end.

Definition guess_dict_of (ps : list pyobj) : result (gmap string pyobj) :=
  guess_dict_from ∅ ps.

(** [np.ones_like(schema) * np.inf] *)
Definition infinite (schema : DataArray) : ndarray :=
  scale (ones_like schema) PInf.

(** [valid = True; for constraint in self.constraints: valid = valid and
    constraint.check(scatterer)] *)
Fixpoint all_valid (valid : bool) (cs : list (R → result bool)) (s : R)
  : result bool :=
  match cs with
  | [] => Ok valid
  | check :: cs =>
      if valid then b ← check s; all_valid b cs s
      else all_valid false cs s
  end.

(** [pars = copy(pars)] *)
Definition copy (pars : loc) (st : estate R) : loc * estate R :=
  (length (dicts st),
   EState (dicts st ++ [dicts st !!! pars]) (calls st)).

(** [_calc] up to the reconstruction of the scatterer: the copy of
    [pars], the scaling [alpha] (1 when it is missing), the optics and
    the scatterer. *)
Definition prepare (self : t) (pars : loc) (schema : DataArray)
    (st : estate R) : result (pyobj * dict pyobj * R) * estate R :=
  let '(pars, st) := copy pars st in
  let '(alpha, st) :=
    match BaseModel.get_parameter (base self) "alpha" pars None st with
    | (Err (MissingParameter _), st) => (Ok (PyNum (inject_Z 1)), st)
    | r => r
    end in
  match alpha with
  | Err e => (Err e, st)
  | Ok alpha =>
      match BaseModel.optics_scatterer (base self) pars (Some schema) st
      with
      | (Err e, st) => (Err e, st)
      | (Ok (optics, scatterer), st) => (Ok (alpha, optics, scatterer), st)
      end
  end.

(** [def _calc(self, pars, schema)].  The [try] block covers the read of
    [self.theory] and the call of [self.calc_func]; every call is
    recorded. *)
Definition calc (self : t) (pars : loc) (schema : DataArray)
    (st : estate R) : result ndarray * estate R :=
  match prepare self pars schema st with
  | (Err e, st) => (Err e, st)
  | (Ok (alpha, optics, scatterer), st) =>
  match all_valid true (BaseModel.constraints (base self)) scatterer with
  | Err e => (Err e, st)
  | Ok false => (Ok (infinite schema), st)
  | Ok true =>
      match BaseModel.attrs (base self) !! "theory" with
      | None => (Ok (infinite schema), st)
      | Some theory =>
          let st := EState (dicts st)
                      (calls st ++
                       [Call schema scatterer alpha theory optics]) in
          match calc_func self schema scatterer alpha theory optics with
          | Ok a => (Ok a, st)
          | Err _ => (Ok (infinite schema), st)
          end
      end
  end end.

(** [def residual(self, pars, data)] *)
Definition residual (self : t) (pars : loc) (data : DataArray)
    (st : estate R) : result ndarray * estate R :=
  match calc self pars data st with
  | (Err e, st) => (Err e, st)
  | (Ok a, st) =>
      match arr_sub a (da_values data) with
      | Ok d => (Ok (flatten d), st)
      | Err e => (Err e, st)
      end
  end.
End with_scatterer.
Arguments t : clear implicits.
End Model.

(** ** Notions used to state the properties *)

(** A free parameter: a Prior that is not Fixed. *)
Definition is_free (o : pyobj) : bool := is_Prior o && negb (is_Fixed o).

(** The calls [add_par(p, name)] that the binder makes for one item of the
    scatterer's [parameters], as pairs [(name, p)], in order. *)
Definition leaves_of (item : string * pyobj) : list (string * pyobj) :=
  let (name, par) := item in
  match par with
  | PyComplexPrior _ real imag _ =>
      [(name +:+ ".real", real); (name +:+ ".imag", imag)]
  | PyDict items | PyArray _ items =>
      (fun kv => (name +:+ "_" +:+ kv.1, kv.2)) <$> items
  | PyPrior _ _ _ _ => [(name, par)]
  | _ => []
  end.

Definition leaves (items : dict pyobj) : list (string * pyobj) :=
  items ≫= leaves_of.

(** The free leaves, in the order of the traversal. *)
Definition free_leaves (lv : list (string * pyobj)) : list (string * pyobj) :=
  filter (fun np => is_free np.2 = true) lv.

(** The leaves that are Priors, Fixed or not. *)
Definition prior_leaves (lv : list (string * pyobj)) : list (string * pyobj) :=
  filter (fun np => is_Prior np.2 = true) lv.

(** No item is a DataArray of several dimensions (or of none). *)
Definition one_dimensional (items : dict pyobj) : Prop :=
  Forall (fun item => match item.2 with
                      | PyArray dims _ => length dims = 1%nat
                      | _ => True
                      end) items.

(** [add_par] over a sequence of leaves. *)
Definition add_leaves (st : ParameterizedObject.locals)
    (lv : list (string * pyobj)) : ParameterizedObject.locals :=
  foldl (fun st np => ParameterizedObject.add_par st np.2 np.1) st lv.
Arguments add_leaves : simpl never.

(** An item that is a single leaf: a Prior that is not a ComplexPrior, or a
    value that is not a Prior, a dict or a DataArray. *)
Definition single_leaf (par : pyobj) : bool :=
  match par with
  | PyDict _ | PyArray _ _ | PyComplexPrior _ _ _ _ => false
  | _ => true
  end.

(** The value that stands for a single leaf in the guess: the guess of a
    Prior, the value itself otherwise. *)
Definition guess_value (par : pyobj) : pyobj :=
  match par with
  | PyPrior _ _ g _ => PyNum g
  | _ => par
  end.

(** [s] is the longest common trailing substring of [a] and [b]. *)
Definition longest_common_suffix (a b s : list ascii) : Prop :=
  s `suffix_of` a ∧ s `suffix_of` b ∧
  ∀ t, t `suffix_of` a → t `suffix_of` b → t `suffix_of` s.

(** [t] is [s] without the characters of [cs] at its two ends. *)
Definition trimmed (cs s t : list ascii) : Prop :=
  ∃ pre post,
    s = pre ++ t ++ post ∧
    Forall (fun c => c ∈ cs) pre ∧ Forall (fun c => c ∈ cs) post ∧
    (∀ c, head t = Some c → c ∉ cs) ∧ (∀ c, last t = Some c → c ∉ cs).

(** The binder's state invariant: [names] runs parallel to [parameters],
    which holds free Priors only, each object once. *)
Record binder_inv (st : ParameterizedObject.locals) : Prop := BinderInv {
  inv_length :
    length (ParameterizedObject.names st)
    = length (ParameterizedObject.parameters st);
  inv_free :
    Forall (fun p => is_free p = true) (ParameterizedObject.parameters st);
  inv_nodup : NoDup (ident_of <$> ParameterizedObject.parameters st);
}.


(** The Priors that [_use_parameter(par, name)] appends to
    [self._parameters], in order, each with the name that it gets when the
    object has not been named before. *)
Fixpoint registered (par : pyobj) (name : string) : list pyobj :=
  match par with
  | PyDict items | PyArray _ items =>
      items ≫= fun kv => registered kv.2 (name +:+ "_" +:+ kv.1)
  | _ =>
      if is_Prior par then
        [match name_of par with
         | None => set_name name par
         | Some _ => par
         end]
      else []
  end.






(** What an evaluation step that works on the dict at [pars] leaves alone:
    the record of the calls, the size of the store and every other dict. *)
Definition frame {R} (pars : loc) (st st' : estate R) : Prop :=
  calls st' = calls st ∧
  length (dicts st') = length (dicts st) ∧
  ∀ l, l ≠ pars → dicts st' !! l = dicts st !! l.

(** The resolution of a name, as the specification words it.
    [resolves self pars name schema st r st'] reads: on the instance [self],
    with the flat mapping at [pars] and the optional [schema], the resolution
    of [name] in the state [st] gives [r] and leaves the state [st'].
    (1) A name that is a key of the flat mapping is popped from it and
    returned.  (2) Else a non-null attribute of that name is returned.
    (3) Else, when a list of sub-keys was recorded under [<name>_names], each
    sub-name [<name>_<key>] is resolved in turn, without the schema, and the
    mapping of the sub-keys to the resolved values is returned; the first
    sub-name that fails makes the resolution fail the same way.  (4) Else the
    schema's attribute of that name is returned, if a schema is given and has
    one.  (5) Else the resolution fails with [MissingParameter(name)]. *)
Section resolution.
Context {R : Type} (self : BaseModel.t R) (pars : loc).

Inductive resolves
  : string → option DataArray → estate R → result pyobj → estate R → Prop :=
| resolves_mapping name schema st v :
    (dicts st !!! pars) !! name = Some v →
    resolves name schema st (Ok v)
      (EState (<[pars := delete name (dicts st !!! pars)]> (dicts st))
              (calls st))
| resolves_attribute name schema st v :
    (dicts st !!! pars) !! name = None →
    BaseModel.attrs self !! name = Some v →
    v ≠ PyNone →
    resolves name schema st (Ok v) st
| resolves_sub_keys name schema st keys r st' :
    (dicts st !!! pars) !! name = None →
    (BaseModel.attrs self !! name = None
     ∨ BaseModel.attrs self !! name = Some PyNone) →
    BaseModel.attrs self !! (name +:+ "_names")
    = Some (PyList (PyStr <$> keys)) →
    resolves_each name keys st r st' →
    resolves name schema st
      (match r with Ok items => Ok (PyDict items) | Err e => Err e end) st'
| resolves_schema name sch st v :
    (dicts st !!! pars) !! name = None →
    (BaseModel.attrs self !! name = None
     ∨ BaseModel.attrs self !! name = Some PyNone) →
    BaseModel.attrs self !! (name +:+ "_names") = None →
    da_attrs sch !! name = Some v →
    resolves name (Some sch) st (Ok v) st
| resolves_missing name schema st :
    (dicts st !!! pars) !! name = None →
    (BaseModel.attrs self !! name = None
     ∨ BaseModel.attrs self !! name = Some PyNone) →
    BaseModel.attrs self !! (name +:+ "_names") = None →
    (∀ sch, schema = Some sch → da_attrs sch !! name = None) →
    resolves name schema st (Err (MissingParameter name)) st
with resolves_each
  : string → list string → estate R → result (dict pyobj) → estate R → Prop :=
| resolves_each_nil name st :
    resolves_each name [] st (Ok []) st
| resolves_each_cons name key keys st v st1 r st2 :
    resolves (name +:+ "_" +:+ key) None st (Ok v) st1 →
    resolves_each name keys st1 r st2 →
    resolves_each name (key :: keys) st
      (match r with Ok items => Ok ((key, v) :: items) | Err e => Err e end)
      st2
| resolves_each_fail name key keys st e st1 :
    resolves (name +:+ "_" +:+ key) None st (Err e) st1 →
    resolves_each name (key :: keys) st (Err e) st1.

End resolution.

Scheme resolves_min := Minimality for resolves Sort Prop
  with resolves_each_min := Minimality for resolves_each Sort Prop.
Combined Scheme resolves_mutual from resolves_min, resolves_each_min.


(** The tie groups [t] with one more group, when [extra] gives one. *)
Definition with_tie (extra : option (string * list string))
    (t : dict (list string)) (key : string) : option (list string) :=
  match extra with
  | Some (g, grp) => if decide (key = g) then Some grp else dict_get t key
  | None => dict_get t key
  end.

(** The state [s] of a traversal that has met the Prior object [P], against
    the state [s'] of the traversal of the same leaves without those of [P]:
    [s] has one parameter more, [P] under the name [nm], and the tie group
    [extra]; everything else is as in [s']. *)
Definition tracks (P : pyobj) (nm : string)
    (extra : option (string * list string))
    (s s' : ParameterizedObject.locals) : Prop :=
  ∃ A B NA NB,
    ParameterizedObject.parameters s' = A ++ B ∧
    ParameterizedObject.parameters s = A ++ P :: B ∧
    ParameterizedObject.names s' = NA ++ NB ∧
    ParameterizedObject.names s = NA ++ nm :: NB ∧
    length NA = length A ∧ length NB = length B ∧
    ∀ key, dict_get (ParameterizedObject.ties s) key
           = with_tie extra (ParameterizedObject.ties s') key.

(** ** Sample objects *)

(** A sphere whose radius is a free Prior of guess 5e-7 and whose index is
    the number 1.59; its concrete scatterers are the mappings they are made
    from. *)
Definition sample_radius : pyobj :=
  PyPrior (Obj 1) false (5 # 10000000) None.

Definition sample_sphere : ParameterizedObject.scatterer (gmap string pyobj) :=
  ParameterizedObject.Scatterer
    [("n", PyNum (159 # 100)); ("r", sample_radius)] Ok.

(** The model that [Model(sample_sphere, calc_func, constraints=cs)]
    builds in an empty store. *)
Definition sample_model (cs : list (gmap string pyobj → result bool))
    (f : DataArray → gmap string pyobj → pyobj → pyobj → dict pyobj
         → result ndarray)
  : Model.t (gmap string pyobj) :=
  Model.Self
    (BaseModel.Self
       (ParameterizedObject.Binder sample_sphere 0%nat []) cs 0%nat
       (list_to_map
          [("medium_index", PyNone); ("illum_wavelen", PyNone);
           ("illum_polarization", PyNone); ("theory", PyStr "auto");
           ("alpha", PyNone)]
        ∪ list_to_map Model.own_attrs ∪ BaseModel.own_attrs))
    f.

(** Observed data of shape 2 x 2, one of its values being +infinity, with
    the optics in its attributes. *)
Definition sample_data : DataArray :=
  MkDataArray
    {[ "medium_index" := PyNum (133 # 100);
       "illum_wavelen" := PyNum (66 # 100);
       "illum_polarization" := PyList [PyNum (inject_Z 1); PyNum (inject_Z 0)] ]}
    (NdArray [2%nat; 2%nat]
             [Fin (inject_Z 0); Fin (inject_Z 1); PInf; Fin (inject_Z 3)]).

(** A trial point: the flat mapping [{'r': 6e-7}] at location 0, and no
    call of [calc_func] yet. *)
Definition sample_state : estate (gmap string pyobj) :=
  EState [{[ "r" := PyNum (6 # 10000000) ]}] [].

(** The constraint [limit_overlaps(fraction=0.0)] for scatterers whose
    largest overlap is 1e-7 and whose smallest radius is 5e-7. *)
Definition no_overlap (s : gmap string pyobj) : result bool :=
  limit_overlaps.check (fun _ => Ok (Fin (1 # 10000000)))
                       (fun _ => Ok (Fin (5 # 10000000)))
                       (Fin (inject_Z 0)) s.


(** A collaborator that computes zeros, and one that raises. *)
Definition zeros_calc (schema : DataArray) (s : gmap string pyobj)
    (scaling theory : pyobj) (optics : dict pyobj) : result ndarray :=
  Ok (NdArray (shape (da_values schema))
              ((fun _ => Fin (inject_Z 0)) <$> data (da_values schema))).

Definition raising_calc (schema : DataArray) (s : gmap string pyobj)
    (scaling theory : pyobj) (optics : dict pyobj) : result ndarray :=
  Err (Raised 7).

(** * Properties *)

(** ** Strings and [tied_name] *)

Lemma chars_unchars l : chars (unchars l) = l.
Proof. apply String.list_ascii_of_string_of_list_ascii. Qed.

Lemma commonprefix_prefix_l a b : commonprefix a b `prefix_of` a.
Proof.
  revert b. induction a as [|x a IH]; intros [|y b]; simpl;
    try apply prefix_nil.
  case_decide; [|apply prefix_nil]. by apply prefix_cons.
Qed.

Lemma commonprefix_prefix_r a b : commonprefix a b `prefix_of` b.
Proof.
  revert b. induction a as [|x a IH]; intros [|y b]; simpl;
    try apply prefix_nil.
  case_decide as Hxy; [|apply prefix_nil]. subst. by apply prefix_cons.
Qed.

Lemma commonprefix_greatest a b t :
  t `prefix_of` a → t `prefix_of` b → t `prefix_of` commonprefix a b.
Proof.
  revert a b. induction t as [|c t IH]; intros a b Ha Hb;
    [apply prefix_nil|].
  destruct Ha as [a' ->], Hb as [b' ->]. simpl.
  rewrite decide_True by done. apply prefix_cons, IH; by eexists.
Qed.

Lemma common_suffix_longest name1 name2 :
  longest_common_suffix (chars name1) (chars name2)
    (common_suffix name1 name2).
Proof.
  unfold common_suffix. split_and!.
  - apply suffix_prefix_reverse. rewrite reverse_involutive.
    apply commonprefix_prefix_l.
  - apply suffix_prefix_reverse. rewrite reverse_involutive.
    apply commonprefix_prefix_r.
  - intros t H1 H2. apply suffix_prefix_reverse.
    rewrite reverse_involutive.
    apply commonprefix_greatest; by apply suffix_prefix_reverse.
Qed.

Lemma lstrip_spec cs s :
  ∃ pre, s = pre ++ lstrip cs s ∧ Forall (fun c => c ∈ cs) pre ∧
         ∀ c, head (lstrip cs s) = Some c → c ∉ cs.
Proof.
  induction s as [|c s (pre & Hs & Hpre & Hhd)]; simpl.
  - exists []. by split_and!.
  - case_decide as Hc.
    + exists (c :: pre). split_and!; [by rewrite Hs at 1|by constructor|done].
    + exists []. split_and!; [done|constructor|]. by intros ? [= <-].
Qed.

Lemma strip_trimmed cs s : trimmed cs s (strip cs s).
Proof.
  unfold strip, rstrip.
  destruct (lstrip_spec cs s) as (pre & Hs & Hpre & Hhd).
  set (m := lstrip cs s) in *.
  destruct (lstrip_spec cs (reverse m)) as (post & Hm & Hpost & Hlast).
  set (r := lstrip cs (reverse m)) in *.
  assert (m = reverse r ++ reverse post) as Hm'.
  { by rewrite <-reverse_app, <-Hm, reverse_involutive. }
  exists pre, (reverse post). split_and!.
  - by rewrite <-Hm'.
  - done.
  - by apply Forall_reverse.
  - intros c Hc. apply Hhd. rewrite Hm'.
    destruct (reverse r); [done|]. done.
  - intros c Hc. apply Hlast. by rewrite <-Hc, last_reverse.
Qed.

Lemma tied_name_spec name1 name2 :
  ∃ s, longest_common_suffix (chars name1) (chars name2) s ∧
       trimmed (chars ":_") s (chars (tied_name name1 name2)).
Proof.
  exists (common_suffix name1 name2). split.
  - apply common_suffix_longest.
  - unfold tied_name. rewrite chars_unchars. apply strip_trimmed.
Qed.

Lemma commonprefix_comm a b : commonprefix a b = commonprefix b a.
Proof.
  revert b. induction a as [|x a IH]; intros [|y b]; simpl; try done.
  repeat case_decide; subst; try done. by rewrite IH.
Qed.

(** X1.  The tie name does not depend on the order of the two names. *)
Lemma tied_name_comm name1 name2 : tied_name name1 name2 = tied_name name2 name1.
Proof. unfold tied_name, common_suffix. by rewrite commonprefix_comm. Qed.

(** ** The binder's traversal *)

Import ParameterizedObject.

Lemma is_free_Prior p : is_free p = true → is_Prior p = true.
Proof. unfold is_free. by intros [??]%andb_true_iff. Qed.

Lemma is_free_not_Fixed p : is_free p = true → is_Fixed p = false.
Proof. unfold is_free. intros [??]%andb_true_iff. by apply negb_true_iff. Qed.

Lemma is_Prior_ident p : is_Prior p = true → is_Some (ident_of p).
Proof. destruct p; naive_solver. Qed.

Lemma same_object_iff p q :
  same_object p q = true ↔ is_Some (ident_of p) ∧ ident_of p = ident_of q.
Proof.
  unfold same_object.
  destruct (ident_of p) as [i|], (ident_of q) as [j|]; simpl;
    try (split; [done|intros [Hs ?]; destruct Hs; congruence]).
  rewrite bool_decide_eq_true.
  split; [intros ->; eauto|by intros [_ [= ->]]].
Qed.

Lemma find_identical_None p ps :
  find_identical p ps = None ↔ Forall (fun q => same_object p q = false) ps.
Proof.
  induction ps as [|q ps IH]; simpl; [by split; [constructor|]|].
  destruct (same_object p q) eqn:Hpq.
  - split; [done|]. intros [? _]%Forall_cons. congruence.
  - rewrite fmap_None, IH. split; [by constructor|by intros [_ ?]%Forall_cons].
Qed.

Lemma find_identical_fresh p ps :
  ident_of p ∉ ident_of <$> ps → find_identical p ps = None.
Proof.
  intros Hp. apply find_identical_None, Forall_forall. intros q Hq.
  apply not_true_is_false. intros [_ Heq]%same_object_iff.
  apply Hp. rewrite Heq. by apply list_elem_of_fmap_2.
Qed.

Lemma find_identical_middle p l1 q l2 :
  Forall (fun x => same_object p x = false) l1 →
  same_object p q = true →
  find_identical p (l1 ++ q :: l2) = Some (length l1).
Proof.
  intros H1 Hq. induction H1 as [|x l1 Hx _ IH]; simpl.
  - by rewrite Hq.
  - by rewrite Hx, IH.
Qed.

Lemma add_par_inv st p name : binder_inv st → binder_inv (add_par st p name).
Proof.
  intros [Hlen Hfree Hnd]. unfold add_par.
  destruct (is_Prior p) eqn:Hp; simpl; [|done].
  destruct (find_identical p (parameters st)) as [i|] eqn:Hfind.
  - split; simpl; [by rewrite length_insert|done..].
  - destruct (is_Fixed p) eqn:Hf; [done|].
    split; simpl.
    + rewrite !length_app. simpl. lia.
    + apply Forall_app. split; [done|]. constructor; [|done].
      unfold is_free. by rewrite Hp, Hf.
    + rewrite fmap_app. apply NoDup_app. split_and!; [done| |apply NoDup_singleton].
      intros x Hx ->%list_elem_of_singleton.
      apply list_elem_of_fmap in Hx as (q & Hq & Hin).
      apply find_identical_None in Hfind.
      rewrite Forall_forall in Hfind. specialize (Hfind q Hin).
      apply not_true_iff_false in Hfind. apply Hfind.
      apply same_object_iff. split; [by apply is_Prior_ident|done].
Qed.

Lemma add_leaves_inv st lv : binder_inv st → binder_inv (add_leaves st lv).
Proof.
  revert st. induction lv as [|[n p] lv IH]; intros st Hst; [done|].
  apply IH. by apply add_par_inv.
Qed.

Lemma add_leaves_app st l1 l2 :
  add_leaves st (l1 ++ l2) = add_leaves (add_leaves st l1) l2.
Proof. apply foldl_app. Qed.

(** Visiting an item is [add_par] on its leaves; it fails on the arrays of
    several dimensions only. *)
Lemma visit_leaves st item :
  match item.2 with
  | PyArray dims _ => length dims = 1%nat
  | _ => True
  end →
  visit st item = Ok (add_leaves st (leaves_of item)).
Proof.
  destruct item as [name par]. simpl.
  destruct par; intros Hd; try done.
  - unfold add_leaves. by rewrite foldl_fmap.
  - rewrite decide_True by done. unfold add_leaves. by rewrite foldl_fmap.
Qed.

Lemma visit_Ok st item st' :
  visit st item = Ok st' →
  match item.2 with
  | PyArray dims _ => length dims = 1%nat
  | _ => True
  end.
Proof.
  destruct item as [name par]. simpl. destruct par; try done.
  by case_decide.
Qed.

Lemma visit_all_leaves st items :
  one_dimensional items →
  visit_all st items = Ok (add_leaves st (leaves items)).
Proof.
  intros Hd. revert st. induction Hd as [|item items Hi _ IH]; intros st;
    [done|].
  simpl. rewrite (visit_leaves _ _ Hi). simpl.
  rewrite IH. unfold leaves. simpl. by rewrite add_leaves_app.
Qed.

Lemma visit_all_Ok st items st' :
  visit_all st items = Ok st' → one_dimensional items.
Proof.
  revert st. induction items as [|item items IH]; intros st; [by constructor|].
  simpl. destruct (visit st item) as [st1|] eqn:Hv; [|done]. simpl.
  intros H. constructor; [by eapply visit_Ok|by eapply IH].
Qed.

Lemma insert_by_name_Permutation {V} (x : string * V) l :
  insert_by_name x l ≡ₚ x :: l.
Proof.
  induction l as [|y l IH]; simpl; [done|].
  destruct (String.leb x.1 y.1); [done|].
  rewrite IH. apply Permutation_swap.
Qed.

Lemma sorted_by_name_Permutation {V} (l : dict V) : sorted_by_name l ≡ₚ l.
Proof.
  induction l as [|x l IH]; simpl; [done|].
  by rewrite insert_by_name_Permutation, IH.
Qed.

Lemma one_dimensional_sorted items :
  one_dimensional items ↔ one_dimensional (sorted_by_name items).
Proof.
  unfold one_dimensional. by rewrite (sorted_by_name_Permutation items).
Qed.

(** The traversal fails on arrays of several dimensions only. *)
Lemma scan_leaves items :
  one_dimensional items →
  scan items = Ok (add_leaves empty (leaves (sorted_by_name items))).
Proof.
  intros Hd. unfold scan. apply visit_all_leaves.
  by apply one_dimensional_sorted in Hd.
Qed.

Lemma scan_Ok items st :
  scan items = Ok st →
  one_dimensional items ∧
  st = add_leaves empty (leaves (sorted_by_name items)).
Proof.
  intros Hs. assert (one_dimensional items) as Hd.
  { apply one_dimensional_sorted. unfold scan in Hs. by eapply visit_all_Ok. }
  split; [done|]. rewrite (scan_leaves _ Hd) in Hs. congruence.
Qed.

Lemma binder_inv_empty : binder_inv empty.
Proof. split; simpl; [done|constructor|constructor]. Qed.

Lemma scan_inv items st : scan items = Ok st → binder_inv st.
Proof.
  intros [_ ->]%scan_Ok. apply add_leaves_inv, binder_inv_empty.
Qed.

Lemma prior_leaves_app l1 l2 :
  prior_leaves (l1 ++ l2) = prior_leaves l1 ++ prior_leaves l2.
Proof. apply filter_app. Qed.

Lemma free_leaves_app l1 l2 :
  free_leaves (l1 ++ l2) = free_leaves l1 ++ free_leaves l2.
Proof. apply filter_app. Qed.

Lemma free_sublist_prior lv : free_leaves lv `sublist_of` prior_leaves lv.
Proof.
  induction lv as [|[n p] lv IH]; [done|].
  unfold free_leaves, prior_leaves in *. rewrite !filter_cons. simpl.
  destruct (decide (is_free p = true)) as [Hf|Hf].
  - rewrite decide_True by by apply is_free_Prior. by apply sublist_skip.
  - case_decide; [by apply sublist_cons|done].
Qed.

(** When no Prior object is met twice, every free leaf is appended under its
    own name and nothing is tied. *)
Lemma add_leaves_distinct st lv :
  NoDup ((ident_of <$> parameters st)
         ++ ((ident_of ∘ snd) <$> prior_leaves lv)) →
  add_leaves st lv
  = Locals (parameters st ++ (free_leaves lv).*2)
           (names st ++ (free_leaves lv).*1) (ties st).
Proof.
  revert st. induction lv as [|[n p] lv IH]; intros st Hnd.
  { simpl. rewrite !app_nil_r. by destruct st. }
  unfold add_leaves. simpl. fold (add_leaves (add_par st p n) lv).
  unfold prior_leaves, free_leaves in *. rewrite filter_cons in Hnd.
  rewrite filter_cons. simpl in *. unfold add_par.
  destruct (is_Prior p) eqn:Hp; simpl.
  - rewrite decide_True in Hnd by done. simpl in Hnd.
    rewrite find_identical_fresh; last first.
    { apply NoDup_app in Hnd as (_ & Hdis & _). intros Hin.
      apply (Hdis _ Hin). by left. }
    destruct (is_Fixed p) eqn:Hf.
    + rewrite decide_False; last first.
      { unfold is_free. rewrite Hp, Hf. done. }
      apply IH. apply NoDup_app in Hnd as (H1 & H2 & H3).
      apply NoDup_app. split_and!; [done| |by apply NoDup_cons in H3 as [_ ?]].
      intros x Hx Hin. apply (H2 x Hx). by right.
    + rewrite decide_True; last first.
      { unfold is_free. rewrite Hp, Hf. done. }
      rewrite IH; simpl.
      * by rewrite <-!app_assoc.
      * rewrite fmap_app. simpl. by rewrite <-app_assoc.
  - rewrite decide_False in Hnd by congruence.
    rewrite decide_False; last first.
    { unfold is_free. rewrite Hp. done. }
    by apply IH.
Qed.

Lemma same_object_refl p : is_Prior p = true → same_object p p = true.
Proof. intros Hp. apply same_object_iff. by split; [apply is_Prior_ident|]. Qed.

Lemma free_leaves_idents_sublist lv :
  ((ident_of <$> (free_leaves lv).*2) : list (option ident))
  `sublist_of` ((ident_of ∘ snd) <$> prior_leaves lv).
Proof.
  rewrite <-list_fmap_compose. apply fmap_sublist, free_sublist_prior.
Qed.

Lemma NoDup_app_sublist {A} (l1 l1' l2 : list A) :
  l1' `sublist_of` l1 → NoDup (l1 ++ l2) → NoDup (l1' ++ l2).
Proof.
  intros Hsub Hnd. eapply sublist_NoDup; [exact Hnd|].
  by apply sublist_app.
Qed.

(** ** Tying two paths *)

(** The state of the traversal once it has met a second leaf that is the
    object of an earlier one, all other Prior objects being met once. *)
Lemma add_leaves_pair c1 n1 P c2 n2 c3 :
  is_free P = true →
  NoDup ((ident_of ∘ snd) <$> prior_leaves (c1 ++ (n1, P) :: c2 ++ c3)) →
  let st := add_leaves empty (c1 ++ (n1, P) :: c2 ++ (n2, P) :: c3) in
  ties st = [(tied_name n1 n2, [n1; n2])] ∧
  parameters st = (free_leaves (c1 ++ (n1, P) :: c2 ++ c3)).*2 ∧
  names st
  = (free_leaves c1).*1 ++ tied_name n1 n2 :: (free_leaves (c2 ++ c3)).*1.
Proof.
  intros HP Hnd st. subst st.
  assert (is_Prior P = true) as HPp by by apply is_free_Prior.
  replace (c1 ++ (n1, P) :: c2 ++ (n2, P) :: c3)
    with ((c1 ++ (n1, P) :: c2) ++ [(n2, P)] ++ c3)
    by by rewrite <-!app_assoc.
  replace (c1 ++ (n1, P) :: c2 ++ c3) with ((c1 ++ (n1, P) :: c2) ++ c3)
    in Hnd |- * by by rewrite <-!app_assoc.
  rewrite prior_leaves_app, fmap_app in Hnd.
  rewrite (add_leaves_app _ (c1 ++ (n1, P) :: c2)).
  rewrite (add_leaves_app _ [(n2, P)]).
  rewrite (add_leaves_distinct empty); last first.
  { simpl. by apply NoDup_app in Hnd as [? _]. }
  simpl.
  assert (free_leaves (c1 ++ (n1, P) :: c2)
          = free_leaves c1 ++ (n1, P) :: free_leaves c2) as HF.
  { rewrite free_leaves_app. f_equal. unfold free_leaves.
    rewrite filter_cons. simpl. by rewrite decide_True. }
  assert (find_identical P (free_leaves (c1 ++ (n1, P) :: c2)).*2
          = Some (length (free_leaves c1))) as Hfind.
  { rewrite HF, fmap_app, fmap_cons. simpl.
    rewrite <-(length_fmap snd (free_leaves c1)).
    apply find_identical_middle; [|by apply same_object_refl].
    apply find_identical_None, find_identical_fresh.
    apply NoDup_app in Hnd as [Hnd _].
    rewrite prior_leaves_app, fmap_app in Hnd.
    unfold prior_leaves at 2 in Hnd. rewrite filter_cons in Hnd.
    simpl in Hnd. rewrite decide_True in Hnd by done.
    rewrite fmap_cons in Hnd. simpl in Hnd.
    apply NoDup_app in Hnd as (_ & Hdis & _). intros Hin.
    eapply Hdis; [|by left].
    eapply elem_of_sublist; [exact Hin|].
    apply free_leaves_idents_sublist. }
  assert ((free_leaves (c1 ++ (n1, P) :: c2)).*1 !!! length (free_leaves c1)
          = n1) as Hold.
  { rewrite HF, fmap_app, fmap_cons. simpl.
    rewrite <-(length_fmap fst (free_leaves c1)).
    by rewrite (list_lookup_total_middle _ _ _ _ eq_refl). }
  assert (add_leaves
            (Locals (free_leaves (c1 ++ (n1, P) :: c2)).*2
                    (free_leaves (c1 ++ (n1, P) :: c2)).*1 [])
            [(n2, P)]
          = Locals (free_leaves (c1 ++ (n1, P) :: c2)).*2
              ((free_leaves c1).*1 ++ tied_name n1 n2 :: (free_leaves c2).*1)
              [(tied_name n1 n2, [n1; n2])]) as ->.
  { unfold add_leaves, add_par. simpl. rewrite HPp. simpl.
    rewrite Hfind, Hold. simpl. f_equal.
    rewrite HF, fmap_app, fmap_cons. simpl.
    rewrite <-(length_fmap fst (free_leaves c1)).
    rewrite <-(Nat.add_0_r (length (free_leaves c1).*1)), insert_app_r.
    done. }
  rewrite add_leaves_distinct; simpl.
  - split_and!; [done|..].
    + by rewrite !free_leaves_app, !fmap_app, <-?app_assoc.
    + by rewrite !free_leaves_app, !fmap_app, <-?app_assoc.
  - eapply NoDup_app_sublist; [|exact Hnd].
    apply free_leaves_idents_sublist.
Qed.

(** C1 as stated fails: tying [center_1.x] and [center_2.x] gives the group
    [.x]; there is no group [x]. *)
Lemma C1_center_paths_group_is_not_x :
  let P := PyPrior (Obj 0) false (inject_Z 1) None in
  ∃ st, scan [("center_1.x", P); ("center_2.x", P)] = Ok st ∧
        ties st = [(".x", ["center_1.x"; "center_2.x"])] ∧
        dict_get (ties st) "x" = None ∧
        tied_name "center_1.x" "center_2.x" ≠ "x".
Proof. intros P. eexists. split_and!; [reflexivity..|]. by vm_compute. Qed.

(** ** The list [parameters] of a binder *)

Lemma deepcopy_ident e p : ident_of (deepcopy e p) = CopyOf e <$> ident_of p.
Proof. by destruct p. Qed.

Lemma deepcopy_is_free e p : is_free (deepcopy e p) = is_free p.
Proof. by destruct p. Qed.

Lemma set_name_ident n p : ident_of (set_name n p) = ident_of p.
Proof. by destruct p. Qed.

Lemma set_name_is_free n p : is_free (set_name n p) = is_free p.
Proof. by destruct p. Qed.

Lemma set_name_name_of n p : is_Prior p = true → name_of (set_name n p) = Some n.
Proof. by destruct p. Qed.

Lemma assign_names_zip pre qs ns :
  length qs = length ns →
  assign_names (length pre) ns (pre ++ qs)
  = pre ++ zip_with (fun q n => set_name n q) qs ns.
Proof.
  revert pre qs. induction ns as [|n ns IH]; intros pre [|q qs] Hlen;
    simplify_eq/=; [done|].
  rewrite <-(Nat.add_0_r (length pre)) at 2. rewrite alter_app_r. simpl.
  replace (S (length pre)) with (length (pre ++ [set_name n q]))
    by (rewrite length_app; simpl; lia).
  rewrite (assoc_L (++) pre [set_name n q] qs : pre ++ set_name n q :: qs = _).
  rewrite IH by done. by rewrite <-app_assoc.
Qed.

Lemma named_copies_zip e st :
  binder_inv st →
  named_copies e st
  = zip_with (fun q n => set_name n q) (deepcopy e <$> parameters st) (names st).
Proof.
  intros [Hlen _ _]. unfold named_copies.
  pose proof (assign_names_zip [] (deepcopy e <$> parameters st) (names st))
    as Hz.
  simpl in Hz. apply Hz. by rewrite length_fmap.
Qed.

Lemma fmap_zip_set_name {B} (g : pyobj → B) qs ns :
  (∀ n q, g (set_name n q) = g q) →
  length qs = length ns →
  g <$> zip_with (fun q n => set_name n q) qs ns = g <$> qs.
Proof.
  intros Hg. revert ns. induction qs as [|q qs IH]; intros [|n ns] Hlen;
    simplify_eq/=; [done|]. by rewrite Hg, IH.
Qed.

Lemma name_of_zip_set_name qs ns :
  Forall (fun q => is_Prior q = true) qs →
  length qs = length ns →
  name_of <$> zip_with (fun q n => set_name n q) qs ns = Some <$> ns.
Proof.
  intros Hqs. revert ns. induction Hqs as [|q qs Hq _ IH]; intros [|n ns] Hlen;
    simplify_eq/=; [done|]. by rewrite set_name_name_of, IH.
Qed.

Lemma free_zip_set_name qs ns :
  Forall (fun q => is_free q = true) qs →
  Forall (fun q => is_free q = true)
         (zip_with (fun q n => set_name n q) qs ns).
Proof.
  intros Hqs. revert ns. induction Hqs as [|q qs Hq _ IH]; intros [|n ns];
    simpl; try constructor; [by rewrite set_name_is_free|apply IH].
Qed.

Global Instance CopyOf_inj e : Inj (=) (=) (CopyOf e).
Proof. by intros i j [= ->]. Qed.

(** What the list of a binder holds, for a state of the traversal that
    satisfies the invariant. *)
Lemma named_copies_inv e st :
  binder_inv st →
  Forall (fun p => is_free p = true) (named_copies e st) ∧
  NoDup (ident_of <$> named_copies e st) ∧
  name_of <$> named_copies e st = Some <$> names st.
Proof.
  intros Hinv. rewrite (named_copies_zip _ _ Hinv).
  destruct Hinv as [Hlen Hfree Hnd].
  assert (length (deepcopy e <$> parameters st) = length (names st)) as Hlen'
    by by rewrite length_fmap.
  split_and!.
  - apply free_zip_set_name, Forall_fmap.
    eapply Forall_impl; [exact Hfree|]. intros p Hp. simpl.
    by rewrite deepcopy_is_free.
  - rewrite (fmap_zip_set_name _ _ _ set_name_ident Hlen').
    rewrite <-list_fmap_compose.
    rewrite (list_fmap_ext _ (fmap (CopyOf e) ∘ ident_of) (parameters st));
      [|intros; apply deepcopy_ident].
    rewrite list_fmap_compose. by apply (NoDup_fmap_2 _).
  - apply name_of_zip_set_name; [|done].
    apply Forall_fmap. eapply Forall_impl; [exact Hfree|].
    intros p Hp. simpl. apply is_free_Prior. by rewrite deepcopy_is_free.
Qed.

(** C6, as the code has it: after the construction of a binder, its
    [parameters] list holds Priors that are not Fixed (no Fixed value, no raw
    scalar), no Prior object twice, and every entry has a name.  The names are
    pairwise distinct when the traversal meets no Prior object twice and the
    names of the free leaves are distinct; they need not be distinct
    otherwise. *)
Theorem C6_binder_parameters {R} (o : scatterer R) (h : lstore) b h' :
  init o h = Ok (b, h') →
  let L := h' !!! self_parameters b in
  let lv := leaves (sorted_by_name (sc_parameters o)) in
  Forall (fun p => is_Prior p = true ∧ is_Fixed p = false) L ∧
  NoDup (ident_of <$> L) ∧
  Forall (fun p => is_Some (name_of p)) L ∧
  (NoDup ((ident_of ∘ snd) <$> prior_leaves lv) →
   NoDup (free_leaves lv).*1 →
   NoDup (name_of <$> L)).
Proof.
  intros Hinit L lv. unfold init in Hinit.
  destruct (scan (sc_parameters o)) as [st|] eqn:Hscan; simplify_eq/=.
  subst L lv. simpl.
  rewrite lookup_total_app_r, Nat.sub_diag by done. simpl.
  pose proof (scan_inv _ _ Hscan) as Hinv.
  destruct (named_copies_inv (length h) st Hinv) as (Hfree & Hnd & Hnames).
  split_and!.
  - eapply Forall_impl; [exact Hfree|]. intros p Hp.
    split; [by apply is_free_Prior|by apply is_free_not_Fixed].
  - done.
  - apply Forall_forall. intros p Hp.
    assert (name_of p ∈ Some <$> names st) as Hin.
    { rewrite <-Hnames. by apply list_elem_of_fmap_2. }
    apply list_elem_of_fmap in Hin as (n & -> & _). by eexists.
  - intros Hdist Hnn. rewrite Hnames. apply (NoDup_fmap_2 _).
    apply scan_Ok in Hscan as [_ ->].
    rewrite add_leaves_distinct by done. done.
Qed.

Lemma C6_binder_parameters_witness :
  let P := PyPrior (Obj 0) false (inject_Z 1) None in
  let o : scatterer unit := Scatterer [("r", P)] (fun _ => Ok ()) in
  let L := [PyPrior (CopyOf 0 (Obj 0)) false (inject_Z 1) (Some "r")] in
  let lv := leaves (sorted_by_name (sc_parameters o)) in
  Forall (fun p => is_Prior p = true ∧ is_Fixed p = false) L ∧
  NoDup (ident_of <$> L) ∧
  Forall (fun p => is_Some (name_of p)) L ∧
  (NoDup ((ident_of ∘ snd) <$> prior_leaves lv) →
   NoDup (free_leaves lv).*1 →
   NoDup (name_of <$> L)).
Proof.
  intros P o L.
  exact (C6_binder_parameters o [] (Binder o 0%nat []) [L] eq_refl).
Defined.

(** C6 as stated fails on the names: two dicts whose flattened keys
    coincide give two parameters of one name. *)
Lemma C6_duplicate_names :
  let P1 := PyPrior (Obj 1) false (inject_Z 1) None in
  let P2 := PyPrior (Obj 2) false (inject_Z 2) None in
  let o : scatterer unit :=
    Scatterer [("n", PyDict [("a_b", P1)]); ("n_a", PyDict [("b", P2)])]
              (fun _ => Ok ()) in
  ∃ b h', init o [] = Ok (b, h') ∧
          name_of <$> (h' !!! self_parameters b)
          = [Some "n_a_b"; Some "n_a_b"] ∧
          ¬ NoDup (name_of <$> (h' !!! self_parameters b)).
Proof.
  intros P1 P2 o. eexists _, _. split_and!; [reflexivity..|].
  simpl. intros Hnd. apply NoDup_cons in Hnd as [Hnot _].
  apply Hnot. by left.
Qed.

(** The same happens with ties: two tie groups that synthesize one name are
    merged, and two parameters carry that name. *)
Example two_tie_groups_one_name :
  let A := PyPrior (Obj 1) false (inject_Z 1) None in
  let B := PyPrior (Obj 2) false (inject_Z 2) None in
  scan [("0:r", A); ("1:r", A); ("2:r", B); ("3:r", B)]
  = Ok (Locals [A; B] ["r"; "r"] [("r", ["0:r"; "1:r"; "3:r"])]).
Proof. reflexivity. Qed.

(** A third path tied to a group whose name has a different suffix starts a
    second group, of which the first group's name is a member. *)
Example three_way_tie_chains_groups :
  let A := PyPrior (Obj 1) false (inject_Z 1) None in
  scan [("a_bx", A); ("c_bx", A); ("d_x", A)]
  = Ok (Locals [A] ["x"]
               [("bx", ["a_bx"; "c_bx"]); ("x", ["bx"; "d_x"])]).
Proof. reflexivity. Qed.

(** ** [make_from] *)

Lemma dict_get_Some_elem {V} (d : dict V) k v :
  dict_get d k = Some v → (k, v) ∈ d.
Proof.
  induction d as [|[k' v'] d IH]; simpl; [done|].
  destruct (decide (k = k')) as [->|Hk].
  - intros [= ->]. apply list_elem_of_here.
  - intros Hg. by apply list_elem_of_further, IH.
Qed.

Lemma dict_get_None_keys {V} (d : dict V) k :
  dict_get d k = None ↔ k ∉ d.*1.
Proof.
  induction d as [|[k' v'] d IH]; simpl.
  - split; [intros _; apply not_elem_of_nil|done].
  - destruct (decide (k = k')) as [->|Hk].
    + split; [done|]. intros Hn. destruct Hn. apply list_elem_of_here.
    + rewrite IH, not_elem_of_cons. split; [by intros ?|by intros [_ ?]].
Qed.

Lemma dict_set_keys {V} (d : dict V) k v :
  (dict_set d k v).*1 = if decide (k ∈ d.*1) then d.*1 else d.*1 ++ [k].
Proof.
  induction d as [|[k' v'] d IH]; csimpl; [done|].
  destruct (decide (k = k')) as [->|Hk]; csimpl.
  - rewrite decide_True by apply list_elem_of_here. done.
  - rewrite IH. destruct (decide (k ∈ d.*1)) as [Hin|Hin].
    + rewrite decide_True by by apply list_elem_of_further. done.
    + rewrite decide_False; [done|]. by intros [?|?]%elem_of_cons.
Qed.

Lemma dict_set_keys_NoDup {V} (d : dict V) k v :
  NoDup d.*1 → NoDup (dict_set d k v).*1.
Proof.
  intros Hnd. rewrite dict_set_keys. case_decide; [done|].
  apply NoDup_app. split_and!; [done| |apply NoDup_singleton].
  by intros x Hx ->%list_elem_of_singleton.
Qed.

Lemma add_par_ties_NoDup st p name :
  NoDup (ties st).*1 → NoDup (ties (add_par st p name)).*1.
Proof.
  intros Hnd. unfold add_par. destruct (is_Prior p); simpl; [|done].
  destruct (find_identical p (parameters st)); simpl.
  - by apply dict_set_keys_NoDup.
  - by destruct (is_Fixed p).
Qed.

Lemma add_leaves_ties_NoDup st lv :
  NoDup (ties st).*1 → NoDup (ties (add_leaves st lv)).*1.
Proof.
  revert st. induction lv as [|[n p] lv IH]; intros st Hnd; [done|].
  apply IH. by apply add_par_ties_NoDup.
Qed.

Lemma scan_ties_NoDup items st : scan items = Ok st → NoDup (ties st).*1.
Proof.
  intros [_ ->]%scan_Ok. apply add_leaves_ties_NoDup. constructor.
Qed.

(** A name that is in no group resolves to itself. *)
Lemma resolve_stable tie_groups name :
  (∀ g grp, (g, grp) ∈ tie_groups → name ∉ grp) →
  resolve tie_groups name = name.
Proof.
  unfold resolve. induction tie_groups as [|[g grp] t IH]; intros Hno; [done|].
  simpl. rewrite decide_False by (apply (Hno g); apply list_elem_of_here).
  apply IH. intros g' grp' Hin. apply (Hno g'). by apply list_elem_of_further.
Qed.

(** A member of one group only, whose name is a member of no other group,
    resolves to the name of its group. *)
Lemma resolve_member tie_groups g grp n :
  NoDup tie_groups.*1 →
  (g, grp) ∈ tie_groups →
  n ∈ grp →
  (∀ g' grp', (g', grp') ∈ tie_groups → g' ≠ g → (g ∉ grp') ∧ (n ∉ grp')) →
  resolve tie_groups n = g.
Proof.
  intros Hnd Hin Hn Hsep.
  apply list_elem_of_split in Hin as (t1 & t2 & ->).
  rewrite fmap_app, fmap_cons in Hnd. simpl in Hnd.
  apply NoDup_app in Hnd as (_ & Hdis & [Hg2 _]%NoDup_cons).
  unfold resolve. rewrite foldl_app. simpl.
  fold (resolve t1 n). rewrite resolve_stable.
  - rewrite decide_True by done. fold (resolve t2 g). apply resolve_stable.
    intros g' grp' Hin'. apply (Hsep g' grp').
    + apply elem_of_app. right. by apply list_elem_of_further.
    + intros ->. apply Hg2. by apply (list_elem_of_fmap_2 fst _ (g, grp')).
  - intros g' grp' Hin'. apply (Hsep g' grp').
    + apply elem_of_app. by left.
    + intros ->. eapply Hdis; [|apply list_elem_of_here].
      by apply (list_elem_of_fmap_2 fst _ (g, grp')).
Qed.

Lemma get_val_free tie_groups values p n :
  is_free p = true →
  get_val tie_groups values p n
  = match values !! resolve tie_groups n with
    | Some v => Ok v
    | None => Err (KeyError (resolve tie_groups n))
    end.
Proof.
  intros Hp. unfold get_val.
  rewrite (is_free_Prior _ Hp). simpl.
  pose proof (is_free_not_Fixed _ Hp) as Hf.
  destruct p as [| | | | | | |i [|] gs nm| |]; try done.
Qed.

Lemma get_val_not_free tie_groups values p n :
  is_free p = false → ∃ v, get_val tie_groups values p n = Ok v.
Proof.
  unfold is_free, get_val. destruct p as [| | | | | | |i [|] gs nm| |]; simpl;
    try done; eauto.
Qed.

Lemma get_val_supplied tie_groups values p n :
  (is_free p = true → is_Some (values !! resolve tie_groups n)) →
  ∃ v, get_val tie_groups values p n = Ok v.
Proof.
  intros Hs. destruct (is_free p) eqn:Hp.
  - rewrite get_val_free by done. destruct (Hs eq_refl) as [v ->]. eauto.
  - by apply get_val_not_free.
Qed.

Lemma dict_mapM_supplied {V W} (f : string → V → result W) (d : dict V) :
  (∀ k x, (k, x) ∈ d → ∃ w, f k x = Ok w) → ∃ d', dict_mapM f d = Ok d'.
Proof.
  induction d as [|[k x] d IH]; intros Hf; simpl; [eauto|].
  destruct (Hf k x) as [w ->]; [by left|]. simpl.
  destruct IH as [d' ->]; [|simpl; eauto].
  intros k' x' Hin. apply Hf. by right.
Qed.

(** [par_val] succeeds when the mapping supplies every free leaf of the
    item. *)
Lemma par_val_supplied tie_groups values name par :
  match par with
  | PyArray dims _ => length dims = 1%nat
  | _ => True
  end →
  (∀ n p, (n, p) ∈ leaves_of (name, par) → is_free p = true →
          is_Some (values !! resolve tie_groups n)) →
  ∃ pv, par_val tie_groups values name par = Ok pv.
Proof.
  intros Hd Hs.
  destruct par as [|x|s|re im|items|items|dims items|i f gs nm|i real imag nm|tag];
    simpl in *; eauto.
  - destruct (dict_mapM_supplied
                (fun key val => get_val tie_groups values val
                                  (name +:+ "_" +:+ key)) items) as [d' ->];
      [|simpl; eauto].
    intros k x Hin. apply get_val_supplied. apply Hs.
    apply list_elem_of_fmap. by exists (k, x).
  - destruct dims; [done|].
    destruct (dict_mapM_supplied
                (fun key val => get_val tie_groups values val
                                  (name +:+ "_" +:+ key)) items) as [d' ->];
      [|simpl; eauto].
    intros k x Hin. apply get_val_supplied. apply Hs.
    apply list_elem_of_fmap. by exists (k, x).
  - apply get_val_supplied. apply Hs. apply list_elem_of_here.
  - destruct (get_val_supplied tie_groups values real (name +:+ ".real"))
      as [re ->]; [apply Hs; apply list_elem_of_here|]. simpl.
    destruct (get_val_supplied tie_groups values imag (name +:+ ".imag"))
      as [im ->];
      [apply Hs; apply list_elem_of_further, list_elem_of_here|].
    simpl. eauto.
Qed.

(** When no path of the scatterer is the name of a tie group, [make_from]
    writes under every path the value computed for it. *)
Lemma obj_pars_from_paths tie_groups values items acc :
  NoDup items.*1 →
  (∀ k, k ∈ items.*1 → dict_get tie_groups k = None) →
  (∀ name par, (name, par) ∈ items →
               ∃ pv, par_val tie_groups values name par = Ok pv) →
  ∃ op, obj_pars_from tie_groups values items acc = Ok op ∧
        (∀ name par, (name, par) ∈ items →
           ∃ pv, par_val tie_groups values name par = Ok pv ∧
                 op !! name = Some pv) ∧
        (∀ k, k ∉ items.*1 → op !! k = acc !! k).
Proof.
  revert acc. induction items as [|[name par] items IH]; intros acc Hnd Hk Hv.
  { exists acc. split_and!; [done| |done]. by intros ?? ?%elem_of_nil. }
  rewrite fmap_cons in Hnd. apply NoDup_cons in Hnd as [Hname Hnd].
  simpl. destruct (Hv name par) as [pv Hpv]; [apply list_elem_of_here|].
  rewrite Hpv. simpl.
  rewrite (Hk name) by apply list_elem_of_here.
  destruct (IH (<[name := pv]> acc)) as (op & Hop & Hitems & Hrest).
  - done.
  - intros k Hin. apply Hk. by apply list_elem_of_further.
  - intros n p Hin. apply Hv. by apply list_elem_of_further.
  - exists op. split_and!; [done|..].
    + intros n p [[= -> ->]|Hin]%elem_of_cons.
      * exists pv. split; [done|].
        rewrite (Hrest name Hname). apply lookup_insert_eq.
      * by apply Hitems.
    + intros k [Hne Hnot]%not_elem_of_cons.
      rewrite (Hrest k Hnot). by apply lookup_insert_ne.
Qed.

Lemma init_Ok {R} (o : scatterer R) h b h' :
  init o h = Ok (b, h') →
  ∃ st, scan (sc_parameters o) = Ok st ∧
        b = Binder o (length h) (ties st) ∧
        h' = h ++ [named_copies (length h) st].
Proof.
  unfold init. destruct (scan (sc_parameters o)) as [st|]; [|done].
  simpl. intros [= <- <-]. eauto.
Qed.

(** C5, as the code has it.  Take a binder, a tie group [g] that is not
    chained to another group (its name is a member of no other group, its
    members belong to no other group), no path of the scatterer being itself
    the name of a group, and a flat mapping that has a value for every free
    leaf under the name the leaf resolves to and the value [v] under [g].
    Then [make_from] succeeds in building the mapping it passes to
    [from_parameters]; every free leaf named in the group is resolved to [v];
    every path holds the value computed for it; and every member path that is
    an item of the scatterer holds [v]. *)
Theorem C5_tied_value_populates_paths {R} (o : scatterer R) (h : lstore)
    b h' g grp v (values : gmap string pyobj) :
  init o h = Ok (b, h') →
  NoDup (sc_parameters o).*1 →
  (g, grp) ∈ self_ties b →
  values !! g = Some v →
  (∀ g' grp', (g', grp') ∈ self_ties b → g' ≠ g →
              (g ∉ grp') ∧ ∀ n, n ∈ grp → n ∉ grp') →
  (∀ k, k ∈ (sc_parameters o).*1 → dict_get (self_ties b) k = None) →
  (∀ n p, (n, p) ∈ leaves (sc_parameters o) → is_free p = true →
          is_Some (values !! resolve (self_ties b) n)) →
  ∃ op, obj_pars b values = Ok op ∧
        make_from b values = from_parameters o op ∧
        (∀ n p, n ∈ grp → is_free p = true →
                get_val (self_ties b) values p n = Ok v) ∧
        (∀ name par, (name, par) ∈ sc_parameters o →
           ∃ pv, par_val (self_ties b) values name par = Ok pv ∧
                 op !! name = Some pv) ∧
        (∀ n i gs nm, n ∈ grp → (n, PyPrior i false gs nm) ∈ sc_parameters o →
                      op !! n = Some v).
Proof.
  intros Hinit Hnd Hg Hv Hsep Hkeys Hsup.
  apply init_Ok in Hinit as (st & Hscan & -> & ->). simpl in *.
  pose proof (scan_ties_NoDup _ _ Hscan) as Hties.
  apply scan_Ok in Hscan as [Hdim _].
  assert (∀ n p, n ∈ grp → is_free p = true →
                 get_val (ties st) values p n = Ok v) as Hres.
  { intros n p Hn Hp. rewrite get_val_free by done.
    rewrite (resolve_member (ties st) g grp n), Hv; [done..|].
    intros g' grp' Hin Hne. destruct (Hsep g' grp' Hin Hne). auto. }
  destruct (obj_pars_from_paths (ties st) values (sc_parameters o) ∅)
    as (op & Hop & Hitems & _); [done..| |].
  { intros name par Hin. apply par_val_supplied.
    - unfold one_dimensional in Hdim. rewrite Forall_forall in Hdim.
      apply (Hdim _ Hin).
    - intros n p Hleaf Hp. apply (Hsup n p); [|done].
      unfold leaves. apply list_elem_of_bind. by exists (name, par). }
  exists op. unfold make_from, obj_pars. simpl. rewrite Hop.
  split_and!; [done..|].
  intros n i gs nm Hn Hin. destruct (Hitems _ _ Hin) as (pv & Hpv & ->).
  simpl in Hpv. rewrite Hres in Hpv by done. congruence.
Qed.

Lemma C5_tied_value_populates_paths_witness :
  let A := PyPrior (Obj 1) false (inject_Z 5) None in
  let o : scatterer (gmap string pyobj) :=
    Scatterer [("0:r", A); ("1:r", A)] Ok in
  let b := Binder o 0%nat [("r", ["0:r"; "1:r"])] in
  let v := PyNum (inject_Z 9) in
  let values : gmap string pyobj := {[ "r" := v ]} in
  ∃ op, obj_pars b values = Ok op ∧
        make_from b values = from_parameters o op ∧
        (∀ n p, n ∈ ["0:r"; "1:r"] → is_free p = true →
                get_val (self_ties b) values p n = Ok v) ∧
        (∀ name par, (name, par) ∈ sc_parameters o →
           ∃ pv, par_val (self_ties b) values name par = Ok pv ∧
                 op !! name = Some pv) ∧
        (∀ n i gs nm, n ∈ ["0:r"; "1:r"] →
                      (n, PyPrior i false gs nm) ∈ sc_parameters o →
                      op !! n = Some v).
Proof.
  intros A o b v values.
  apply (C5_tied_value_populates_paths o [] b
           [[PyPrior (CopyOf 0 (Obj 1)) false (inject_Z 5) (Some "r")]]
           "r" ["0:r"; "1:r"] v values).
  - reflexivity.
  - apply (bool_decide_unpack _). vm_compute. exact I.
  - apply list_elem_of_here.
  - reflexivity.
  - intros g' grp' Hin%list_elem_of_singleton Hne. by simplify_eq.
  - intros k Hk. simpl in Hk.
    apply elem_of_cons in Hk as [->|Hk%list_elem_of_singleton];
      [|subst k]; reflexivity.
  - intros n p Hin _. simpl in Hin.
    apply elem_of_cons in Hin as [[= -> ->]|[= -> ->]%list_elem_of_singleton];
      by eexists.
Defined.

(** C5 as stated fails when groups are chained: after a three-way tie the
    group [bx] has the member [a_bx], but that path is resolved through the
    later group [x], so that it is filled with the value supplied under [x],
    not with the one supplied under [bx]; without a value under [x],
    [make_from] raises [KeyError]. *)
Lemma C5_chained_group_ignores_value :
  let A := PyPrior (Obj 1) false (inject_Z 5) None in
  let o : scatterer (gmap string pyobj) :=
    Scatterer [("a_bx", A); ("c_bx", A); ("d_x", A)] Ok in
  ∃ b h' op,
    init o [] = Ok (b, h') ∧
    dict_get (self_ties b) "bx" = Some ["a_bx"; "c_bx"] ∧
    obj_pars b {[ "bx" := PyNum (inject_Z 9); "x" := PyNum (inject_Z 1) ]}
    = Ok op ∧
    op !! "a_bx" = Some (PyNum (inject_Z 1)) ∧
    op !! "a_bx" ≠ Some (PyNum (inject_Z 9)) ∧
    obj_pars b {[ "bx" := PyNum (inject_Z 9) ]} = Err (KeyError "x").
Proof.
  intros A o. eexists _, _, _. split_and!; [reflexivity..| |reflexivity].
  by vm_compute.
Qed.

(** ** The [guess] property of the binder *)

(** C2 fails on the code: [guess] hands [make_from] a mapping keyed by the
    paths of the scatterer, while [make_from] reads the value of a tied leaf
    under the name of its group.  For two paths tied to one Prior, [guess]
    raises [KeyError] on the group name, whereas [make_from] on the mapping
    of the binder's parameter names to their guesses rebuilds the
    scatterer. *)
Theorem C2_guess_raises_on_tied_paths :
  let A := PyPrior (Obj 1) false (inject_Z 5) None in
  let o : scatterer (gmap string pyobj) :=
    Scatterer [("0:r", A); ("1:r", A)] Ok in
  ∃ b h' flat,
    init o [] = Ok (b, h') ∧
    Model.guess_dict_of (h' !!! self_parameters b) = Ok flat ∧
    flat = {[ "r" := PyNum (inject_Z 5) ]} ∧
    make_from b flat
    = Ok {[ "0:r" := PyNum (inject_Z 5); "1:r" := PyNum (inject_Z 5) ]} ∧
    guess b = Err (KeyError "r").
Proof. intros A o. eexists _, _, _. split_and!; reflexivity. Qed.

(** The same defect makes [guess] fail on a Prior held in a dict. *)
Example guess_raises_on_dict_leaf :
  let A := PyPrior (Obj 1) false (inject_Z 5) None in
  let o : scatterer (gmap string pyobj) :=
    Scatterer [("center", PyDict [("x", A)])] Ok in
  ∃ b h' flat,
    init o [] = Ok (b, h') ∧
    Model.guess_dict_of (h' !!! self_parameters b) = Ok flat ∧
    make_from b flat
    = Ok {[ "center" := PyDict [("x", PyNum (inject_Z 5))] ]} ∧
    guess b = Err (KeyError "center_x").
Proof. intros A o. eexists _, _, _. split_and!; reflexivity. Qed.

(** On untied top-level Priors the two agree. *)
Example guess_round_trip_flat :
  let A := PyPrior (Obj 1) false (inject_Z 5) None in
  let F := PyPrior (Obj 2) true (inject_Z 3) None in
  let N := PyComplexPrior (Obj 3)
             (PyPrior (Obj 4) false (inject_Z 2) None)
             (PyPrior (Obj 5) true (inject_Z 0) None) None in
  let o : scatterer (gmap string pyobj) :=
    Scatterer [("r", A); ("z", F); ("n", N); ("k", PyNum (inject_Z 7))] Ok in
  ∃ b h' flat s,
    init o [] = Ok (b, h') ∧
    Model.guess_dict_of (h' !!! self_parameters b) = Ok flat ∧
    make_from b flat = Ok s ∧
    guess b = Ok s.
Proof. intros A F N o. eexists _, _, _, _. split_and!; reflexivity. Qed.

(** *** The round trip on single leaves that are not tied *)

Lemma guess_step_single m k :
  (∀ v, m !! k = Some v → single_leaf v = true) →
  guess_step (Ok m) k
  = Ok (match m !! k with
        | Some v => <[k := guess_value v]> m
        | None => m
        end).
Proof.
  intros Hm. unfold guess_step. simpl.
  destruct (m !! k) as [v|] eqn:Hk; [|done].
  specialize (Hm v eq_refl). destruct v; try done; by rewrite insert_id.
Qed.

Lemma guess_value_single v : single_leaf v = true → single_leaf (guess_value v) = true.
Proof. by destruct v. Qed.

Lemma guess_fold_single (m : gmap string pyobj) ks :
  (∀ k v, m !! k = Some v → single_leaf v = true) →
  NoDup ks →
  ∃ m', foldl guess_step (Ok m) ks = Ok m' ∧
        ∀ k, m' !! k = if decide (k ∈ ks) then guess_value <$> m !! k
                       else m !! k.
Proof.
  revert m. induction ks as [|k ks IH]; intros m Hm Hnd.
  { exists m. split; [done|]. intros k. by rewrite decide_False
      by apply not_elem_of_nil. }
  apply NoDup_cons in Hnd as [Hk Hnd].
  change (foldl guess_step (Ok m) (k :: ks))
    with (foldl guess_step (guess_step (Ok m) k) ks).
  rewrite guess_step_single by (intros v; apply Hm).
  set (m1 := match m !! k with
             | Some v => <[k := guess_value v]> m
             | None => m
             end).
  assert (m1 !! k = guess_value <$> m !! k) as Hk1.
  { subst m1. destruct (m !! k) as [v|] eqn:Hmk; simpl.
    - apply lookup_insert_eq.
    - by rewrite Hmk. }
  assert (∀ x, x ≠ k → m1 !! x = m !! x) as Hne1.
  { intros x Hx. subst m1. destruct (m !! k); [|done].
    by apply lookup_insert_ne. }
  destruct (IH m1) as (m' & Hfold & Hm'); [|done|].
  { intros x v. destruct (decide (x = k)) as [->|Hx].
    - rewrite Hk1. destruct (m !! k) as [w|] eqn:Hw; [|done].
      intros [= <-]. apply guess_value_single. by eapply Hm.
    - rewrite (Hne1 x Hx). apply Hm. }
  exists m'. split; [done|]. intros x. rewrite (Hm' x).
  destruct (decide (x = k)) as [->|Hx].
  - rewrite decide_False by done.
    rewrite decide_True by apply list_elem_of_here. done.
  - rewrite (Hne1 x Hx). destruct (decide (x ∈ ks)) as [Hin|Hin].
    + rewrite decide_True by by apply list_elem_of_further. done.
    + rewrite decide_False; [done|]. by intros [?|?]%elem_of_cons.
Qed.

(** The mapping that [guess] builds, for single leaves. *)
Lemma guess_pars_single items :
  NoDup items.*1 →
  Forall (fun kv => single_leaf kv.2 = true) items →
  ∃ pars, guess_pars items = Ok pars ∧
          ∀ name par, (name, par) ∈ items →
                      pars !! name = Some (guess_value par).
Proof.
  intros Hnd Hall.
  destruct (guess_fold_single (list_to_map items) items.*1) as (m & Hm & Hlook).
  - intros k v Hk%elem_of_list_to_map; [|done].
    rewrite Forall_forall in Hall. apply (Hall (k, v) Hk).
  - done.
  - exists m. split; [done|]. intros name par Hin. rewrite Hlook.
    rewrite decide_True by by apply (list_elem_of_fmap_2 fst _ (name, par)).
    by rewrite (elem_of_list_to_map_1 _ _ _ Hnd Hin).
Qed.

Lemma leaves_single_sublist items :
  Forall (fun kv => single_leaf kv.2 = true) items →
  leaves items `sublist_of` items.
Proof.
  induction 1 as [|[name par] items Hp _ IH]; [done|].
  unfold leaves in *. simpl.
  destruct par; simpl in *; try done; try by apply sublist_cons.
  by apply sublist_skip.
Qed.

Lemma guess_dict_from_named e (F : list (string * pyobj)) : ∀ d,
  Forall (fun np => single_leaf np.2 = true ∧ is_Prior np.2 = true) F →
  NoDup F.*1 →
  Model.guess_dict_from d ((fun np => set_name np.1 (deepcopy e np.2)) <$> F)
  = Ok (list_to_map ((fun np => (np.1, guess_value np.2)) <$> F) ∪ d).
Proof.
  induction F as [|[n p] F IH]; intros d HF Hnd.
  { simpl. by rewrite (left_id ∅ (∪)). }
  apply Forall_cons in HF as [[Hs Hp] HF].
  rewrite fmap_cons in Hnd. apply NoDup_cons in Hnd as [Hn Hnd].
  rewrite !fmap_cons. cbn [Model.guess_dict_from fst snd].
  rewrite set_name_name_of by by destruct p.
  assert (guess_of (set_name n (deepcopy e p)) = Ok (guess_value p)) as ->.
  { by destruct p. }
  cbn [mbind result_bind]. rewrite IH by done.
  cbn [list_to_map foldr fst snd]. f_equal.
  rewrite <-insert_union_l. symmetry. apply insert_union_r.
  apply not_elem_of_list_to_map_1. by rewrite <-list_fmap_compose.
Qed.

Lemma guess_dict_of_named e (F : list (string * pyobj)) :
  Forall (fun np => single_leaf np.2 = true ∧ is_Prior np.2 = true) F →
  NoDup F.*1 →
  Model.guess_dict_of ((fun np => set_name np.1 (deepcopy e np.2)) <$> F)
  = Ok (list_to_map ((fun np => (np.1, guess_value np.2)) <$> F)).
Proof.
  intros HF Hnd. unfold Model.guess_dict_of.
  rewrite guess_dict_from_named by done. by rewrite (right_id ∅ (∪)).
Qed.

Lemma zip_named_copies e (F : list (string * pyobj)) :
  zip_with (fun q n => set_name n q) (deepcopy e <$> F.*2) F.*1
  = (fun np => set_name np.1 (deepcopy e np.2)) <$> F.
Proof. induction F as [|[n p] F IH]; csimpl; [done|]. by rewrite IH. Qed.

Lemma obj_pars_from_ext tie_groups v1 v2 items acc :
  (∀ name par, (name, par) ∈ items →
     par_val tie_groups v1 name par = par_val tie_groups v2 name par) →
  obj_pars_from tie_groups v1 items acc
  = obj_pars_from tie_groups v2 items acc.
Proof.
  revert acc. induction items as [|[name par] items IH]; intros acc Hv;
    [done|].
  simpl. rewrite (Hv name par) by apply list_elem_of_here.
  destruct (par_val tie_groups v2 name par); [|done]. simpl.
  apply IH. intros n p Hin. apply Hv. by apply list_elem_of_further.
Qed.

(** X11.  On a scatterer whose items are single leaves and where no Prior
    object is met twice, the round trip holds: [guess] returns what
    [make_from] returns on the mapping of the binder's parameter names to
    their guesses. *)
Lemma guess_round_trip_single_leaves {R} (o : scatterer R) (h : lstore) b h' :
  init o h = Ok (b, h') →
  NoDup (sc_parameters o).*1 →
  Forall (fun kv => single_leaf kv.2 = true) (sc_parameters o) →
  NoDup ((ident_of ∘ snd) <$>
         prior_leaves (leaves (sorted_by_name (sc_parameters o)))) →
  ∃ flat, Model.guess_dict_of (h' !!! self_parameters b) = Ok flat ∧
          guess b = make_from b flat.
Proof.
  intros Hinit Hnd Hall Hdist.
  apply init_Ok in Hinit as (st & Hscan & -> & ->).
  pose proof (scan_inv _ _ Hscan) as Hinv.
  apply scan_Ok in Hscan as [_ Hst].
  rewrite add_leaves_distinct in Hst by done. simpl in Hst.
  set (F := free_leaves (leaves (sorted_by_name (sc_parameters o)))) in *.
  assert (Forall (fun kv : string * pyobj => single_leaf kv.2 = true)
                 (sorted_by_name (sc_parameters o))) as Hall'.
  { by rewrite (sorted_by_name_Permutation (sc_parameters o)). }
  assert (F `sublist_of` sorted_by_name (sc_parameters o)) as Hsub.
  { etrans; [apply sublist_filter|]. by apply leaves_single_sublist. }
  assert (NoDup F.*1) as HndF.
  { eapply sublist_NoDup; [|by apply fmap_sublist].
    by rewrite (sorted_by_name_Permutation (sc_parameters o)). }
  assert (Forall (fun np => single_leaf np.2 = true ∧ is_Prior np.2 = true) F)
    as HF.
  { apply Forall_forall. intros [n p] Hin. simpl. split.
    - rewrite Forall_forall in Hall'. apply (Hall' (n, p)).
      by eapply elem_of_sublist.
    - apply is_free_Prior.
      by apply (list_elem_of_filter (fun np => is_free np.2 = true)) in Hin
        as [? _]. }
  rewrite lookup_total_app_r, Nat.sub_diag by done. simpl.
  rewrite (named_copies_zip _ _ Hinv), Hst. simpl.
  rewrite zip_named_copies, guess_dict_of_named by done.
  eexists. split; [done|].
  destruct (guess_pars_single (sc_parameters o) Hnd Hall)
    as (pars & Hpars & Hlook).
  unfold guess, make_from, obj_pars. simpl. rewrite Hpars. simpl.
  rewrite (obj_pars_from_ext [] pars
             (list_to_map ((fun np => (np.1, guess_value np.2)) <$> F)));
    [done|].
  intros name par Hin.
  rewrite Forall_forall in Hall. pose proof (Hall (name, par) Hin) as Hs.
  destruct par as [|x|s|re im|items|items|dims items|i [|] g nm|i re im nm|t];
    try done.
  simpl. unfold get_val. simpl.
  rewrite (Hlook _ _ Hin). simpl.
  assert ((name, PyPrior i false g nm) ∈ F) as HinF.
  { apply list_elem_of_filter. split; [done|].
    unfold leaves. apply list_elem_of_bind.
    exists (name, PyPrior i false g nm). split; [apply list_elem_of_here|].
    by rewrite (sorted_by_name_Permutation (sc_parameters o)). }
  rewrite (elem_of_list_to_map_1 _ name (PyNum g)); [done| |].
  - by rewrite <-list_fmap_compose.
  - apply list_elem_of_fmap. by exists (name, PyPrior i false g nm).
Qed.

(** ** [get_parameter] *)

Lemma string_length_app a b :
  String.length (a +:+ b) = (String.length a + String.length b)%nat.
Proof. induction a as [|c a IH]; simpl; [done|]. by rewrite IH. Qed.

Lemma name_bound_le {R} (self : BaseModel.t R) k v :
  BaseModel.attrs self !! k = Some v →
  (String.length k ≤ BaseModel.name_bound self)%nat.
Proof.
  intros Hk. unfold BaseModel.name_bound. apply max_list_elem_of_le.
  apply list_elem_of_fmap. exists k. split; [done|].
  apply list_elem_of_fmap. exists (k, v). split; [done|].
  by apply elem_of_map_to_list.
Qed.

Lemma each_key_ext {R} (rec1 rec2 : string → estate R → result pyobj * estate R)
    name keys acc st :
  (∀ key st, rec1 (name +:+ "_" +:+ key) st = rec2 (name +:+ "_" +:+ key) st) →
  BaseModel.each_key rec1 name keys acc st
  = BaseModel.each_key rec2 name keys acc st.
Proof.
  intros Hrec. revert acc st.
  induction keys as [|k keys IH]; intros acc st; [done|].
  destruct k; simpl; try done. rewrite Hrec.
  destruct (rec2 _ st) as [[v|e] st']; [apply IH|done].
Qed.

(** Past the depth that the attribute names allow, more fuel changes
    nothing: the recursion of [get_parameter] never runs out of fuel. *)
Lemma get_parameter_fuel_enough {R} (self : BaseModel.t R) pars f1 :
  ∀ f2 name schema st,
    (1 ≤ f1)%nat → (1 ≤ f2)%nat →
    (BaseModel.name_bound self + 1 ≤ f1 + String.length name)%nat →
    (BaseModel.name_bound self + 1 ≤ f2 + String.length name)%nat →
    BaseModel.get_parameter_fuel f1 self name pars schema st
    = BaseModel.get_parameter_fuel f2 self name pars schema st.
Proof.
  induction f1 as [|f1 IH]; intros [|f2] name schema st H1 H2 Hb1 Hb2;
    try lia.
  simpl. destruct ((dicts st !!! pars) !! name); [done|].
  destruct (match BaseModel.attrs self !! name with
            | Some PyNone | None => None
            | Some v => Some v
            end); [done|].
  destruct (BaseModel.attrs self !! (name +:+ "_names")) as [names|] eqn:Hn;
    [|done].
  apply name_bound_le in Hn. rewrite string_length_app in Hn. simpl in Hn.
  destruct (BaseModel.py_iter names) as [keys|]; [|done].
  apply each_key_ext. intros key st'. apply IH.
  - lia.
  - lia.
  - rewrite !string_length_app. simpl. lia.
  - rewrite !string_length_app. simpl. lia.
Qed.












Example missing_optics_parameter_raises :
  let self : BaseModel.t unit :=
    BaseModel.Self (Binder (Scatterer [] (fun _ => Ok ())) 0%nat []) [] 0%nat
                   {[ "medium_index" := PyNone ]} in
  let st : estate unit := EState [∅] [] in
  let schema := MkDataArray {[ "medium_index" := PyNum (133 # 100) ]}
                            (NdArray [0%nat] []) in
  BaseModel.get_parameter self "medium_index" 0%nat None st
  = (Err (MissingParameter "medium_index"), st) ∧
  BaseModel.get_parameter self "medium_index" 0%nat (Some schema) st
  = (Ok (PyNum (133 # 100)), st).
Proof. split; reflexivity. Qed.

(** ** What an evaluation leaves alone *)

Lemma frame_refl {R} pars (st : estate R) : frame pars st st.
Proof. by split_and!. Qed.

Lemma frame_trans {R} pars (st1 st2 st3 : estate R) :
  frame pars st1 st2 → frame pars st2 st3 → frame pars st1 st3.
Proof.
  intros (Hc1 & Hl1 & Hd1) (Hc2 & Hl2 & Hd2). split_and!; [congruence..|].
  intros l Hl. by rewrite Hd2, Hd1.
Qed.

Lemma each_key_frame {R}
    (rec : string → estate R → result pyobj * estate R)
    pars name keys acc st r st' :
  (∀ n s r s', rec n s = (r, s') → frame pars s s') →
  BaseModel.each_key rec name keys acc st = (r, st') →
  frame pars st st'.
Proof.
  intros Hrec. revert acc st.
  induction keys as [|k keys IH]; intros acc st; simpl.
  { intros [= <- <-]. apply frame_refl. }
  destruct k; try (intros [= <- <-]; apply frame_refl).
  destruct (rec _ st) as [[v|e] st1] eqn:Hr.
  - intros Hk. eapply frame_trans; [by eapply Hrec|by eapply IH].
  - intros [= <- <-]. by eapply Hrec.
Qed.

Lemma get_parameter_fuel_frame {R} (self : BaseModel.t R) pars fuel :
  ∀ name schema st r st',
    BaseModel.get_parameter_fuel fuel self name pars schema st = (r, st') →
    frame pars st st'.
Proof.
  induction fuel as [|fuel IH]; intros name schema st r st'; simpl.
  { intros [= <- <-]. apply frame_refl. }
  destruct ((dicts st !!! pars) !! name).
  { intros [= <- <-]. split_and!; simpl; [done|by rewrite length_insert|].
    intros l Hl. by apply list_lookup_insert_ne. }
  destruct (match BaseModel.attrs self !! name with
            | Some PyNone | None => None
            | Some v => Some v
            end).
  { intros [= <- <-]. apply frame_refl. }
  destruct (BaseModel.attrs self !! (name +:+ "_names")) as [names|].
  - destruct (BaseModel.py_iter names) as [keys|].
    + apply each_key_frame. intros n s r' s'. apply IH.
    + intros [= <- <-]. apply frame_refl.
  - destruct schema as [sch|]; [destruct (da_attrs sch !! name)|];
      intros [= <- <-]; apply frame_refl.
Qed.

Lemma get_parameter_frame {R} (self : BaseModel.t R) name pars schema st r st' :
  BaseModel.get_parameter self name pars schema st = (r, st') →
  frame pars st st'.
Proof. apply get_parameter_fuel_frame. Qed.

Lemma optics_scatterer_frame {R} (self : BaseModel.t R) pars schema st r st' :
  BaseModel.optics_scatterer self pars schema st = (r, st') →
  frame pars st st'.
Proof.
  unfold BaseModel.optics_scatterer.
  destruct (BaseModel.get_parameter self "medium_index" pars schema st)
    as [[v1|e1] st1] eqn:H1; apply get_parameter_frame in H1;
    [|by intros [= <- <-]].
  destruct (BaseModel.get_parameter self "illum_wavelen" pars schema st1)
    as [[v2|e2] st2] eqn:H2; apply get_parameter_frame in H2;
    [|intros [= <- <-]; by eapply frame_trans].
  destruct (BaseModel.get_parameter self "illum_polarization" pars schema st2)
    as [[v3|e3] st3] eqn:H3; apply get_parameter_frame in H3;
    [|intros [= <- <-]; eapply frame_trans; [|done]; by eapply frame_trans].
  destruct (make_from _ _); intros [= <- <-];
    (eapply frame_trans; [|done]; by eapply frame_trans).
Qed.

(** [prepare] works on a copy: it adds one dict to the store and leaves the
    dicts that were there, and the record of the calls, as they are. *)
Lemma prepare_frame {R} (self : Model.t R) pars schema st r st' :
  Model.prepare self pars schema st = (r, st') →
  calls st' = calls st ∧
  ∀ l d, dicts st !! l = Some d → dicts st' !! l = Some d.
Proof.
  unfold Model.prepare, Model.copy.
  set (st0 := EState (dicts st ++ [dicts st !!! pars]) (calls st)).
  assert (∀ s, frame (length (dicts st)) st0 s →
               calls s = calls st ∧
               ∀ l d, dicts st !! l = Some d → dicts s !! l = Some d) as Hfr.
  { intros s (Hc & _ & Hd). split; [done|]. intros l d Hl.
    rewrite Hd; [by apply lookup_app_l_Some|].
    apply lookup_lt_Some in Hl. lia. }
  destruct (BaseModel.get_parameter (Model.base self) "alpha"
              (length (dicts st)) None st0) as [ra st1] eqn:Ha.
  apply get_parameter_frame in Ha.
  assert (∀ alpha,
            match BaseModel.optics_scatterer (Model.base self)
                    (length (dicts st)) (Some schema) st1 with
            | (Err e, st2) => (Err e, st2)
            | (Ok (optics, scatterer), st2) =>
                (Ok (alpha, optics, scatterer), st2)
            end = (r, st') →
            calls st' = calls st ∧
            ∀ l d, dicts st !! l = Some d → dicts st' !! l = Some d) as Hrest.
  { intros alpha.
    destruct (BaseModel.optics_scatterer _ _ _ st1) as [[[o s]|e] st2] eqn:Ho;
      apply optics_scatterer_frame in Ho; intros [= <- <-];
      apply Hfr; by eapply frame_trans. }
  destruct ra as [alpha|e]; [apply Hrest|].
  destruct e; try (intros [= <- <-]; by apply Hfr). apply Hrest.
Qed.

Lemma calc_frame {R} (self : Model.t R) pars schema st r st' :
  Model.calc self pars schema st = (r, st') →
  ∀ l d, dicts st !! l = Some d → dicts st' !! l = Some d.
Proof.
  unfold Model.calc.
  destruct (Model.prepare self pars schema st) as [[[[a o] s]|e] st1] eqn:Hp;
    apply prepare_frame in Hp as [_ Hd]; [|by intros [= <- <-]].
  destruct (Model.all_valid _ _ _) as [[|]|]; [|by intros [= <- <-]..].
  destruct (BaseModel.attrs _ !! "theory"); [|by intros [= <- <-]].
  by destruct (Model.calc_func _ _ _ _ _ _); intros [= <- <-].
Qed.

(** C10: [residual] leaves the caller's mapping, and every dict that
    exists when it is called, as it is: [_calc] copies the mapping first and
    [get_parameter] pops its entries from the copy. *)
Theorem C10_residual_keeps_pars {R} (self : Model.t R) (pars : loc)
    (observed : DataArray) (st : estate R) d :
  dicts st !! pars = Some d →
  dicts (Model.residual self pars observed st).2 !! pars = Some d ∧
  ∀ l d', dicts st !! l = Some d' →
          dicts (Model.residual self pars observed st).2 !! l = Some d'.
Proof.
  intros Hd.
  assert (∀ l d', dicts st !! l = Some d' →
            dicts (Model.residual self pars observed st).2 !! l = Some d')
    as Hall; [|by split; [apply Hall|]].
  unfold Model.residual.
  destruct (Model.calc self pars observed st) as [[a|e] st1] eqn:Hc;
    pose proof (calc_frame _ _ _ _ _ _ Hc) as Hfr; [|done].
  by destruct (arr_sub a (da_values observed)).
Qed.

Example sample_model_is_constructed cs f :
  Model.init (inl sample_sphere) f PyNone PyNone PyNone (PyStr "auto") PyNone
             cs []
  = Ok (sample_model cs f,
        [[PyPrior (CopyOf 0 (Obj 1)) false (5 # 10000000) (Some "r")]]).
Proof. reflexivity. Qed.

(** ** Penalties *)

Lemma all_valid_false {R} (cs : list (R → result bool)) s :
  Model.all_valid false cs s = Ok false.
Proof. induction cs; simpl; done. Qed.

Lemma all_valid_rejected {R} v (pre : list (R → result bool)) c post s :
  Forall (fun c' => ∃ b, c' s = Ok b) pre →
  c s = Ok false →
  Model.all_valid v (pre ++ c :: post) s = Ok false.
Proof.
  intros Hpre Hc. revert v. induction Hpre as [|c' pre [b Hb] _ IH]; intros v.
  - simpl. destruct v; [|apply all_valid_false].
    rewrite Hc. simpl. apply all_valid_false.
  - simpl. destruct v; [|apply IH]. rewrite Hb. simpl. apply IH.
Qed.

Lemma all_valid_accepted {R} (cs : list (R → result bool)) s :
  Forall (fun c => c s = Ok true) cs → Model.all_valid true cs s = Ok true.
Proof. induction 1 as [|c cs Hc _ IH]; simpl; [done|]. by rewrite Hc. Qed.

Lemma infinite_eq (schema : DataArray) :
  Model.infinite schema
  = NdArray (shape (da_values schema))
            (replicate (length (data (da_values schema))) PInf).
Proof.
  unfold Model.infinite, scale, ones_like. simpl. f_equal.
  induction (data (da_values schema)) as [|x l IH]; [done|].
  simpl. by rewrite <-IH.
Qed.

Lemma zip_fsub_infinite (d : list xfloat) :
  zip_with fsub (replicate (length d) PInf) d = fsub PInf <$> d.
Proof. induction d as [|x d IH]; csimpl; [done|]. by rewrite IH. Qed.

Lemma fsub_PInf_finite (d : list xfloat) :
  Forall (fun x => x ≠ PInf ∧ x ≠ NaN) d →
  fsub PInf <$> d = replicate (length d) PInf.
Proof.
  induction 1 as [|x d [H1 H2] _ IH]; csimpl; [done|].
  rewrite IH. by destruct x.
Qed.

(** The residual when [_calc] returns the array of +infinity. *)
Lemma residual_of_infinite {R} (self : Model.t R) pars observed st st' :
  Model.calc self pars observed st = (Ok (Model.infinite observed), st') →
  Model.residual self pars observed st
  = (Ok (NdArray [length (data (da_values observed))]
                 (fsub PInf <$> data (da_values observed))), st').
Proof.
  intros Hc. unfold Model.residual. rewrite Hc, infinite_eq.
  unfold arr_sub. simpl. rewrite decide_True by done.
  unfold flatten. simpl. rewrite zip_fsub_infinite.
  by rewrite length_fmap.
Qed.

(** X12.  [limit_overlaps] with the fraction 0 rejects every scatterer
    whose largest overlap is not below or equal to 0, whatever the radii. *)
Lemma limit_overlaps_zero_fraction {R}
    (largest_overlap min_r : R → result xfloat) s ov r :
  largest_overlap s = Ok ov →
  min_r s = Ok r →
  fle ov (Fin (inject_Z 0)) = false →
  limit_overlaps.check largest_overlap min_r (Fin (inject_Z 0)) s = Ok false.
Proof.
  intros Hov Hr Hpos. unfold limit_overlaps.check. rewrite Hov, Hr. simpl.
  f_equal. destruct r as [x| | |]; try by destruct ov.
  destruct ov as [q| | |]; simpl in *; try done.
  unfold Qle_bool in *. simpl in *.
  apply Z.leb_gt in Hpos. apply Z.leb_gt.
  rewrite Z.mul_0_r, Z.mul_0_l in *. simpl in *. lia.
Qed.

(** C3, as the code has it: when the scatterer is reconstructed and a
    constraint rejects it, the constraints before that one having returned,
    [_calc] returns an array of the shape of the schema filled with +infinity
    and [calc_func] is not invoked.  [residual] returns the flattened
    difference of that array and the data: one dimension, as many entries as
    the schema, each [+infinity - data]; they are all +infinity when no entry
    of the data is +infinity or NaN. *)
Theorem C3_rejected_scatterer_is_penalised {R} (self : Model.t R)
    (pars : loc) (observed : DataArray) (st : estate R)
    alpha optics s st' pre c post :
  Model.prepare self pars observed st = (Ok (alpha, optics, s), st') →
  BaseModel.constraints (Model.base self) = pre ++ c :: post →
  Forall (fun c' => ∃ b, c' s = Ok b) pre →
  c s = Ok false →
  let n := length (data (da_values observed)) in
  Model.calc self pars observed st
  = (Ok (NdArray (shape (da_values observed)) (replicate n PInf)), st') ∧
  calls st' = calls st ∧
  Model.residual self pars observed st
  = (Ok (NdArray [n] (fsub PInf <$> data (da_values observed))), st') ∧
  (Forall (fun x => x ≠ PInf ∧ x ≠ NaN) (data (da_values observed)) →
   Model.residual self pars observed st
   = (Ok (NdArray [n] (replicate n PInf)), st')).
Proof.
  intros Hp Hcs Hpre Hc n.
  assert (Model.calc self pars observed st
          = (Ok (Model.infinite observed), st')) as Hcalc.
  { unfold Model.calc. rewrite Hp, Hcs.
    by rewrite (all_valid_rejected true pre c post s Hpre Hc). }
  split_and!.
  - by rewrite Hcalc, infinite_eq.
  - by apply prepare_frame in Hp as [? _].
  - by apply residual_of_infinite.
  - intros Hfin. rewrite (residual_of_infinite _ _ _ _ _ Hcalc).
    by rewrite fsub_PInf_finite.
Qed.

Lemma C3_rejected_scatterer_is_penalised_witness :
  let reject := no_overlap in
  let self := sample_model [reject] zeros_calc in
  let observed :=
    MkDataArray (da_attrs sample_data)
                (NdArray [2%nat] [Fin (inject_Z 0); Fin (inject_Z 1)]) in
  ∃ st',
    Model.calc self 0%nat observed sample_state
    = (Ok (NdArray [2%nat] (replicate 2 PInf)), st') ∧
    calls st' = calls sample_state ∧
    Model.residual self 0%nat observed sample_state
    = (Ok (NdArray [2%nat] (fsub PInf <$> data (da_values observed))), st') ∧
    (Forall (fun x => x ≠ PInf ∧ x ≠ NaN) (data (da_values observed)) →
     Model.residual self 0%nat observed sample_state
     = (Ok (NdArray [2%nat] (replicate 2 PInf)), st')).
Proof.
  intros reject self observed. eexists.
  eapply (C3_rejected_scatterer_is_penalised self 0%nat observed sample_state
            _ _ _ _ [] reject []).
  - reflexivity.
  - reflexivity.
  - constructor.
  - reflexivity.
Defined.

(** C3 as stated fails on what [residual] returns: for data of shape 2 x 2
    with one value +infinity, the residual of a rejected scatterer has one
    dimension and holds a NaN. *)
Lemma C3_residual_is_flat_and_not_all_infinite :
  let self := sample_model [no_overlap] zeros_calc in
  ∃ st',
    Model.residual self 0%nat sample_data sample_state
    = (Ok (NdArray [4%nat] [PInf; PInf; NaN; PInf]), st') ∧
    calls st' = [] ∧
    shape (da_values sample_data) = [2%nat; 2%nat] ∧
    NdArray [4%nat] [PInf; PInf; NaN; PInf]
    ≠ NdArray (shape (da_values sample_data)) (replicate 4 PInf).
Proof. intros self. eexists. split_and!; [reflexivity..|done]. Qed.

(** C4, as the code has it: when the scatterer is reconstructed, every
    constraint accepts it and [calc_func] raises, whatever the exception,
    [_calc] catches it and returns an array of the shape of the schema filled
    with +infinity.  [residual] returns the flattened difference of that array
    and the data: one dimension, as many entries as the schema, each
    [+infinity - data]; they are all +infinity when no entry of the data is
    +infinity or NaN. *)
Theorem C4_failed_calculation_is_penalised {R} (self : Model.t R)
    (pars : loc) (observed : DataArray) (st : estate R)
    alpha optics s st' theory e :
  Model.prepare self pars observed st = (Ok (alpha, optics, s), st') →
  Forall (fun c => c s = Ok true) (BaseModel.constraints (Model.base self)) →
  BaseModel.attrs (Model.base self) !! "theory" = Some theory →
  Model.calc_func self observed s alpha theory optics = Err e →
  let n := length (data (da_values observed)) in
  let st'' := EState (dicts st')
                (calls st' ++ [Call observed s alpha theory optics]) in
  Model.calc self pars observed st
  = (Ok (NdArray (shape (da_values observed)) (replicate n PInf)), st'') ∧
  Model.residual self pars observed st
  = (Ok (NdArray [n] (fsub PInf <$> data (da_values observed))), st'') ∧
  (Forall (fun x => x ≠ PInf ∧ x ≠ NaN) (data (da_values observed)) →
   Model.residual self pars observed st
   = (Ok (NdArray [n] (replicate n PInf)), st'')).
Proof.
  intros Hp Hcs Hth Hf n st''.
  assert (Model.calc self pars observed st
          = (Ok (Model.infinite observed), st'')) as Hcalc.
  { unfold Model.calc. rewrite Hp, (all_valid_accepted _ _ Hcs), Hth.
    by rewrite Hf. }
  split_and!.
  - by rewrite Hcalc, infinite_eq.
  - by apply residual_of_infinite.
  - intros Hfin. rewrite (residual_of_infinite _ _ _ _ _ Hcalc).
    by rewrite fsub_PInf_finite.
Qed.

Lemma C4_failed_calculation_is_penalised_witness :
  let self := sample_model [] raising_calc in
  let observed :=
    MkDataArray (da_attrs sample_data)
                (NdArray [2%nat] [Fin (inject_Z 0); Fin (inject_Z 1)]) in
  ∃ st'',
    Model.calc self 0%nat observed sample_state
    = (Ok (NdArray [2%nat] (replicate 2 PInf)), st'') ∧
    Model.residual self 0%nat observed sample_state
    = (Ok (NdArray [2%nat] (fsub PInf <$> data (da_values observed))), st'') ∧
    (Forall (fun x => x ≠ PInf ∧ x ≠ NaN) (data (da_values observed)) →
     Model.residual self 0%nat observed sample_state
     = (Ok (NdArray [2%nat] (replicate 2 PInf)), st'')).
Proof.
  intros self observed. eexists.
  eapply (C4_failed_calculation_is_penalised self 0%nat observed sample_state
            _ _ _ _ (PyStr "auto") (Raised 7)).
  - reflexivity.
  - constructor.
  - reflexivity.
  - reflexivity.
Defined.

(** C4 as stated fails on what [residual] returns: for data of shape 2 x 2
    with one value +infinity, the residual after a failed calculation has one
    dimension and holds a NaN. *)
Lemma C4_residual_is_flat_and_not_all_infinite :
  let self := sample_model [] raising_calc in
  ∃ st',
    Model.residual self 0%nat sample_data sample_state
    = (Ok (NdArray [4%nat] [PInf; PInf; NaN; PInf]), st') ∧
    length (calls st') = 1%nat ∧
    shape (da_values sample_data) = [2%nat; 2%nat] ∧
    NdArray [4%nat] [PInf; PInf; NaN; PInf]
    ≠ NdArray (shape (da_values sample_data)) (replicate 4 PInf).
Proof. intros self. eexists. split_and!; [reflexivity..|done]. Qed.

Lemma C10_residual_keeps_pars_witness :
  let self := sample_model [] zeros_calc in
  let d : gmap string pyobj := {[ "r" := PyNum (6 # 10000000) ]} in
  dicts (Model.residual self 0%nat sample_data sample_state).2 !! 0%nat
  = Some d ∧
  ∀ l d', dicts sample_state !! l = Some d' →
          dicts (Model.residual self 0%nat sample_data sample_state).2 !! l
          = Some d'.
Proof.
  intros self d.
  apply (C10_residual_keeps_pars self 0%nat sample_data sample_state d).
  reflexivity.
Defined.

(** An entry [alpha] is popped from the copy that [_calc] works on. *)
Example residual_pops_from_the_copy :
  let self := sample_model [] zeros_calc in
  let d : gmap string pyobj :=
    {[ "r" := PyNum (6 # 10000000); "alpha" := PyNum (7 # 10) ]} in
  dicts (Model.residual self 0%nat sample_data (EState [d] [])).2
  = [d; {[ "r" := PyNum (6 # 10000000) ]}].
Proof. reflexivity. Qed.

(** ** Construction of a Model *)
























(** The list of the binder after the construction of that Model: its own
    parameter, then alpha. *)
Example alpha_is_appended_to_the_binder_list :
  let alpha := PyPrior (Obj 9) false (6 # 10) None in
  ∃ m h',
    Model.init (inl sample_sphere) zeros_calc PyNone PyNone PyNone
               (PyStr "auto") alpha [] []
    = Ok (m, h') ∧
    h' !!! self_parameters (BaseModel.scatterer (Model.base m))
    = [PyPrior (CopyOf 0 (Obj 1)) false (5 # 10000000) (Some "r");
       PyPrior (Obj 9) false (6 # 10) (Some "alpha")].
Proof. intros alpha. eexists _, _. split; reflexivity. Qed.

(** One Prior object given for two parameters is named once, in place, when
    it is registered for the first: the list holds it twice, and both
    attributes are bound to it, under the name of the first parameter. *)
Example one_prior_for_two_parameters :
  let P := PyPrior (Obj 9) false (133 # 100) None in
  let Q := PyPrior (Obj 9) false (133 # 100) (Some "medium_index") in
  ∃ m h',
    Model.init (inl sample_sphere) zeros_calc P P PyNone (PyStr "auto")
               PyNone [] []
    = Ok (m, h') ∧
    h' !!! self_parameters (BaseModel.scatterer (Model.base m))
    = [PyPrior (CopyOf 0 (Obj 1)) false (5 # 10000000) (Some "r"); Q; Q] ∧
    BaseModel.attrs (Model.base m) !! "medium_index" = Some Q ∧
    BaseModel.attrs (Model.base m) !! "illum_wavelen" = Some Q.
Proof. intros P Q. eexists _, _. split_and!; reflexivity. Qed.


Lemma visit_all_Err st items e :
  visit_all st items = Err e →
  e = ParameterSpecificationError multi_dim_msg.
Proof.
  revert st. induction items as [|[name par] items IH]; intros st; [done|].
  intros Hva.
  change (visit st (name, par) ≫= (fun st' => visit_all st' items) = Err e)
    in Hva.
  destruct (visit st (name, par)) as [st'|e'] eqn:Hv; simpl in Hva.
  - by eapply IH.
  - injection Hva as <-. destruct par; simpl in Hv; try done.
    case_decide; [done|]. by injection Hv as <-.
Qed.



Lemma find_identical_Some_length p ps i :
  find_identical p ps = Some i → (i < length ps)%nat.
Proof.
  revert i. induction ps as [|q ps IH]; intros i; [done|]. simpl.
  destruct (same_object p q); [intros [= <-]; lia|].
  destruct (find_identical p ps) as [j|]; [|done].
  intros [= <-]. specialize (IH j eq_refl). lia.
Qed.






(** A Fixed Prior given for alpha is registered as well: the Model is
    constructed although none of its parameters is free. *)
Example fixed_alpha_counts_as_a_parameter :
  let fixed_sphere : scatterer (gmap string pyobj) :=
    Scatterer [("n", PyNum (159 # 100));
               ("r", PyPrior (Obj 1) true (5 # 10000000) None)] Ok in
  let alpha := PyPrior (Obj 9) true (6 # 10) None in
  ∃ m h',
    Model.init (inl fixed_sphere) zeros_calc PyNone PyNone PyNone
               (PyStr "auto") alpha [] []
    = Ok (m, h') ∧
    h' !!! BaseModel.parameters (Model.base m)
    = [PyPrior (Obj 9) true (6 # 10) (Some "alpha")] ∧
    Forall (fun p => is_free p = false)
           (h' !!! BaseModel.parameters (Model.base m)).
Proof.
  intros fixed_sphere alpha. eexists _, _.
  split_and!; [reflexivity|reflexivity|by repeat constructor].
Qed.

(** * Further properties *)

(** ** More on [tied_name] *)

Lemma unchars_chars s : unchars (chars s) = s.
Proof. apply String.string_of_list_ascii_of_string. Qed.

Lemma chars_app a b : chars (a +:+ b) = chars a ++ chars b.
Proof. induction a as [|c a IH]; simpl; [done|]. by rewrite IH. Qed.

Lemma commonprefix_app_r l k : commonprefix l (l ++ k) = l.
Proof.
  induction l as [|x l IH]; simpl; [by destruct k|].
  destruct (decide (x = x)); [by rewrite IH|done].
Qed.

Lemma lstrip_id cs s : (∀ c, head s = Some c → c ∉ cs) → lstrip cs s = s.
Proof.
  destruct s as [|c s]; simpl; [done|]. intros H.
  destruct (decide (c ∈ cs)) as [Hin|]; [|done]. by destruct (H c).
Qed.

Lemma strip_id cs s :
  (∀ c, head s = Some c → c ∉ cs) → (∀ c, last s = Some c → c ∉ cs) →
  strip cs s = s.
Proof.
  intros Hh Hl. unfold strip, rstrip. rewrite (lstrip_id cs s) by done.
  rewrite lstrip_id; [by rewrite reverse_involutive|].
  intros c Hc. apply Hl. by rewrite <- head_reverse.
Qed.

Lemma strip_idemp cs s : strip cs (strip cs s) = strip cs s.
Proof.
  destruct (strip_trimmed cs s) as (pre & post & _ & _ & _ & Hh & Hl).
  by apply strip_id.
Qed.

Lemma tied_name_chars a b : chars (tied_name a b) = strip (chars ":_") (common_suffix a b).
Proof. unfold tied_name. apply chars_unchars. Qed.

Lemma common_suffix_app g p : common_suffix g (p +:+ g) = chars g.
Proof.
  unfold common_suffix. rewrite chars_app, reverse_app, commonprefix_app_r.
  apply reverse_involutive.
Qed.

(** X2.  Tying a group name once more with a path that ends in that very
    name gives the same name again: for the name [g] of a tie group and any
    prefix [p], [tied_name g (p + g) = g].  A third path that ends in the
    group name therefore joins the group under its name. *)
Theorem tied_name_absorbs a b p :
  tied_name (tied_name a b) (p +:+ tied_name a b) = tied_name a b.
Proof.
  unfold tied_name at 1. rewrite common_suffix_app, tied_name_chars, strip_idemp.
  by rewrite <- tied_name_chars, unchars_chars.
Qed.

Lemma commonprefix_head_ne x a y b : x ≠ y → commonprefix (x :: a) (y :: b) = [].
Proof. intros. simpl. by destruct (decide (x = y)). Qed.

(** X3.  Two names whose last characters differ have the empty string as
    their tie name. *)
Theorem tied_name_unrelated a c b d :
  c ≠ d →
  tied_name (a +:+ String c "") (b +:+ String d "") = "".
Proof.
  intros Hne. unfold tied_name, common_suffix.
  rewrite !chars_app.
  change (chars (String c "")) with [c]. change (chars (String d "")) with [d].
  rewrite !reverse_app, !reverse_singleton. simpl.
  by destruct (decide (c = d)).
Qed.

Lemma tied_name_unrelated_witness :
  tied_name ("radius" +:+ String "x" "") ("radius" +:+ String "y" "") = "".
Proof. apply (tied_name_unrelated "radius" "x" "radius" "y"). discriminate. Defined.

(** ** More on the construction of the binder *)

Lemma free_leaves_cons_free n P rest :
  is_free P = true → free_leaves ((n, P) :: rest) = (n, P) :: free_leaves rest.
Proof. intros HP. unfold free_leaves. rewrite filter_cons. simpl. by rewrite decide_True. Qed.

Lemma find_identical_free_leaves c1 n1 P rest :
  is_free P = true →
  NoDup ((ident_of ∘ snd) <$> prior_leaves (c1 ++ (n1, P) :: rest)) →
  find_identical P (free_leaves (c1 ++ (n1, P) :: rest)).*2
  = Some (length (free_leaves c1)).
Proof.
  intros HP Hnd.
  rewrite free_leaves_app, free_leaves_cons_free, fmap_app, fmap_cons by done.
  simpl. rewrite <-(length_fmap snd (free_leaves c1)).
  apply find_identical_middle; [|by apply same_object_refl, is_free_Prior].
  apply find_identical_None, find_identical_fresh.
  rewrite prior_leaves_app, fmap_app in Hnd.
  unfold prior_leaves at 2 in Hnd. rewrite filter_cons in Hnd.
  simpl in Hnd. rewrite decide_True in Hnd by by apply is_free_Prior.
  rewrite fmap_cons in Hnd. simpl in Hnd.
  apply NoDup_app in Hnd as (_ & Hdis & _). intros Hin.
  eapply Hdis; [|by left].
  eapply elem_of_sublist; [exact Hin|].
  apply free_leaves_idents_sublist.
Qed.

Lemma add_par_found st p name i :
  is_Prior p = true →
  find_identical p (parameters st) = Some i →
  let old := names st !!! i in
  let new_name := tied_name old name in
  add_par st p name
  = Locals (parameters st) (<[i := new_name]> (names st))
      (dict_set (ties st) new_name
         (default [old] (dict_get (ties st) new_name) ++ [name])).
Proof.
  intros Hp Hfind old new_name. unfold add_par. rewrite Hp, Hfind.
  cbn [negb]. fold old. fold new_name.
  by destruct (dict_get (ties st) new_name).
Qed.

(** X4.  Three leaves [n1], [n2] and [n3], met in this order, that are one
    free Prior object (no other Prior object being met twice) leave one
    parameter for the three.  Its name is [g' = tied_name (tied_name n1 n2)
    n3].  When [g'] is the name [g = tied_name n1 n2] of the first group, the
    third path joins that group; otherwise the first group stays as it is
    and a second group [g'] is made of the name [g] and the path [n3]. *)
Theorem three_way_tie items c1 n1 P c2 n2 c3 n3 c4 :
  one_dimensional items →
  leaves (sorted_by_name items)
  = c1 ++ (n1, P) :: c2 ++ (n2, P) :: c3 ++ (n3, P) :: c4 →
  is_free P = true →
  NoDup ((ident_of ∘ snd) <$> prior_leaves (c1 ++ (n1, P) :: c2 ++ c3 ++ c4)) →
  let g := tied_name n1 n2 in
  let g' := tied_name g n3 in
  ∃ st, scan items = Ok st ∧
        parameters st = (free_leaves (c1 ++ (n1, P) :: c2 ++ c3 ++ c4)).*2 ∧
        names st !! length (free_leaves c1) = Some g' ∧
        ties st = if decide (g' = g) then [(g, [n1; n2; n3])]
                  else [(g, [n1; n2]); (g', [g; n3])].
Proof.
  intros H1d Hlv HP Hnd g g'.
  assert (is_Prior P = true) as HPp by by apply is_free_Prior.
  eexists. split; [by apply scan_leaves|]. rewrite Hlv.
  replace (c1 ++ (n1, P) :: c2 ++ (n2, P) :: c3 ++ (n3, P) :: c4)
    with ((c1 ++ (n1, P) :: c2 ++ (n2, P) :: c3) ++ [(n3, P)] ++ c4)
    by by rewrite <-?app_assoc; cbn [app]; rewrite <-?app_assoc.
  replace (c1 ++ (n1, P) :: c2 ++ c3 ++ c4)
    with ((c1 ++ (n1, P) :: c2 ++ c3) ++ c4) in Hnd |- *
    by by rewrite <-?app_assoc; cbn [app]; rewrite <-?app_assoc.
  rewrite (add_leaves_app _ (c1 ++ (n1, P) :: c2 ++ (n2, P) :: c3)).
  rewrite (add_leaves_app _ [(n3, P)]).
  assert (NoDup ((ident_of ∘ snd) <$> prior_leaves (c1 ++ (n1, P) :: c2 ++ c3)))
    as Hnd3.
  { rewrite prior_leaves_app, fmap_app in Hnd. by apply NoDup_app in Hnd as [? _]. }
  destruct (add_leaves_pair c1 n1 P c2 n2 c3 HP Hnd3) as (Ht & Hp & Hn).
  fold g in Ht, Hn.
  assert (g' = tied_name g n3) as Hg' by done. clearbody g'. clearbody g.
  destruct (add_leaves empty (c1 ++ (n1, P) :: c2 ++ (n2, P) :: c3))
    as [ps ns ts]. cbn [parameters names ties] in Ht, Hp, Hn. subst ps ns ts.
  assert (add_leaves
            (Locals (free_leaves (c1 ++ (n1, P) :: c2 ++ c3)).*2
               ((free_leaves c1).*1 ++ g :: (free_leaves (c2 ++ c3)).*1)
               [(g, [n1; n2])])
            [(n3, P)]
          = Locals (free_leaves (c1 ++ (n1, P) :: c2 ++ c3)).*2
              ((free_leaves c1).*1 ++ g' :: (free_leaves (c2 ++ c3)).*1)
              (if decide (g' = g) then [(g, [n1; n2; n3])]
               else [(g, [n1; n2]); (g', [g; n3])])) as ->.
  { unfold add_leaves. cbn [foldl fst snd].
    rewrite (add_par_found _ P n3 (length (free_leaves c1)) HPp); last first.
    { apply (find_identical_free_leaves c1 n1 P (c2 ++ c3) HP Hnd3). }
    cbn [parameters names ties].
    rewrite <-(length_fmap fst (free_leaves c1)).
    rewrite (list_lookup_total_middle _ _ _ _ eq_refl). rewrite <-Hg'.
    f_equal.
    - rewrite <-(Nat.add_0_r (length (free_leaves c1).*1)), insert_app_r. done.
    - cbn [dict_get dict_set]. destruct (decide (g' = g)) as [->|]; done. }
  rewrite add_leaves_distinct; cbn [parameters names ties].
  - split_and!.
    + by rewrite (free_leaves_app _ c4), fmap_app.
    + apply lookup_app_l_Some.
      rewrite <-(length_fmap fst (free_leaves c1)).
      by rewrite list_lookup_middle.
    + done.
  - rewrite prior_leaves_app, fmap_app in Hnd.
    eapply NoDup_app_sublist; [|exact Hnd].
    apply free_leaves_idents_sublist.
Qed.

Lemma three_way_tie_witness :
  let A := PyPrior (Obj 1) false (inject_Z 5) None in
  ∃ st, scan [("c_r", A); ("a_r", A); ("b_r", A)] = Ok st ∧
        parameters st = [A] ∧
        names st !! 0%nat = Some "r" ∧
        ties st = [("r", ["a_r"; "b_r"; "c_r"])].
Proof.
  intros A.
  apply (three_way_tie [("c_r", A); ("a_r", A); ("b_r", A)]
           [] "a_r" A [] "b_r" [] "c_r" []).
  - repeat constructor.
  - reflexivity.
  - reflexivity.
  - vm_compute. apply NoDup_singleton.
Defined.



Lemma add_par_parameters st p name q :
  q ∈ parameters (add_par st p name) →
  q ∈ parameters st ∨ (q = p ∧ is_free p = true).
Proof.
  unfold add_par. destruct (is_Prior p) eqn:Hp; simpl; [|by left].
  destruct (find_identical p (parameters st)); simpl; [by left|].
  destruct (is_Fixed p) eqn:Hf; simpl; [by left|].
  rewrite elem_of_app, list_elem_of_singleton. intros [?|Heq]; [by left|].
  subst q. right. split; [done|]. unfold is_free. by rewrite Hp, Hf.
Qed.

Lemma add_leaves_parameters lv : ∀ st q,
  q ∈ parameters (add_leaves st lv) →
  q ∈ parameters st ∨ q ∈ (free_leaves lv).*2.
Proof.
  induction lv as [|[n p] lv IH]; intros st q; [by left|].
  unfold add_leaves. simpl. fold (add_leaves (add_par st p n) lv).
  intros [Hq|Hq]%IH.
  - apply add_par_parameters in Hq as [?|[-> Hf]]; [by left|].
    right. rewrite free_leaves_cons_free by done. by left.
  - right. unfold free_leaves in *. rewrite filter_cons.
    case_decide; [by right|done].
Qed.






Lemma dict_set_Forall {V} (P : string * V → Prop) (d : dict V) k v :
  Forall P d → P (k, v) → Forall P (dict_set d k v).
Proof.
  intros Hd Hkv. induction d as [|[k' v'] d IH]; simpl.
  - by constructor.
  - apply Forall_cons in Hd as [? ?].
    destruct (decide (k = k')); constructor; auto.
Qed.

Lemma dict_set_keys_incl {V} (d : dict V) k v k' :
  k' = k ∨ k' ∈ d.*1 → k' ∈ (dict_set d k v).*1.
Proof.
  rewrite dict_set_keys. intros [->|Hin]; case_decide; try done.
  - apply elem_of_app. right. by apply list_elem_of_singleton.
  - apply elem_of_app. by left.
Qed.

Lemma add_par_groups (S : list string) st p name :
  (is_free p = true → name ∈ S) →
  Forall (fun gg => (2 ≤ length gg.2)%nat) (ties st) →
  Forall (fun n => n ∈ S ∨ n ∈ (ties st).*1) (names st) →
  Forall (fun gg => (2 ≤ length gg.2)%nat) (ties (add_par st p name)) ∧
  Forall (fun n => n ∈ S ∨ n ∈ (ties (add_par st p name)).*1)
         (names (add_par st p name)).
Proof.
  intros HS Hg Hn. destruct (is_Prior p) eqn:Hp; last first.
  { unfold add_par. by rewrite Hp. }
  destruct (find_identical p (parameters st)) as [i|] eqn:Hfind.
  - rewrite (add_par_found st p name i Hp Hfind). cbn [names ties].
    set (new_name := tied_name (names st !!! i) name).
    split.
    + apply dict_set_Forall; [done|]. cbn [snd].
      destruct (dict_get (ties st) new_name) as [grp|] eqn:Hget; cbn [default].
      * apply dict_get_Some_elem in Hget.
        rewrite Forall_forall in Hg. specialize (Hg _ Hget). cbn [snd] in Hg.
        rewrite length_app. cbn [length id]. clear -Hg. lia.
      * done.
    + apply Forall_insert.
      * eapply Forall_impl; [exact Hn|]. intros n [?|?]; [by left|].
        right. apply dict_set_keys_incl. by right.
      * right. apply dict_set_keys_incl. by left.
  - unfold add_par. rewrite Hp, Hfind. cbn [negb].
    destruct (is_Fixed p) eqn:Hf; [done|]. cbn [names ties].
    split; [done|]. apply Forall_app. split; [done|].
    constructor; [|done]. left. apply HS. unfold is_free. by rewrite Hp, Hf.
Qed.

Lemma add_leaves_groups (S : list string) lv : ∀ st,
  (∀ n p, (n, p) ∈ lv → is_free p = true → n ∈ S) →
  Forall (fun gg => (2 ≤ length gg.2)%nat) (ties st) →
  Forall (fun n => n ∈ S ∨ n ∈ (ties st).*1) (names st) →
  Forall (fun gg => (2 ≤ length gg.2)%nat) (ties (add_leaves st lv)) ∧
  Forall (fun n => n ∈ S ∨ n ∈ (ties (add_leaves st lv)).*1)
         (names (add_leaves st lv)).
Proof.
  induction lv as [|[n p] lv IH]; intros st HS Hg Hn; [done|].
  unfold add_leaves. cbn [foldl fst snd]. fold (add_leaves (add_par st p n) lv).
  destruct (add_par_groups S st p n) as [Hg' Hn']; [|done..|].
  { intros. apply (HS n p); [by left|done]. }
  apply IH; [|done..]. intros n' p' Hin. apply HS. by right.
Qed.

(** X8.  In every binder that is built, the keys of [ties] are distinct,
    every tie group has at least two members, and every parameter is named
    either by the path of a free leaf of the scatterer or by a tie group. *)
Theorem binder_ties_invariant {R} (o : scatterer R) (h : lstore) b h' :
  init o h = Ok (b, h') →
  let lv := leaves (sorted_by_name (sc_parameters o)) in
  NoDup (self_ties b).*1 ∧
  Forall (fun gg => (2 ≤ length gg.2)%nat) (self_ties b) ∧
  Forall (fun q => ∃ n, name_of q = Some n ∧
                        (n ∈ (free_leaves lv).*1 ∨ n ∈ (self_ties b).*1))
         (h' !!! self_parameters b).
Proof.
  intros Hinit lv.
  destruct (init_Ok _ _ _ _ Hinit) as (st & Hscan & -> & ->).
  pose proof (scan_inv _ _ Hscan) as Hinv.
  pose proof (scan_ties_NoDup _ _ Hscan) as Hnd.
  apply scan_Ok in Hscan as [_ Hst]. fold lv in Hst.
  cbn [self_ties self_parameters].
  rewrite (list_lookup_total_middle _ _ _ _ eq_refl).
  destruct (add_leaves_groups (free_leaves lv).*1 lv empty) as [Hg Hn].
  { intros n p Hin Hf. apply (list_elem_of_fmap_2 fst _ (n, p)).
    unfold free_leaves. by apply list_elem_of_filter. }
  { constructor. }
  { constructor. }
  rewrite <-Hst in Hg, Hn. split_and!; [done..|].
  destruct (named_copies_inv (length h) st Hinv) as (_ & _ & Hnames).
  apply Forall_lookup. intros i q Hq.
  apply (list_lookup_fmap_Some_2 name_of) in Hq. rewrite Hnames in Hq.
  apply list_lookup_fmap_Some in Hq as (n & Hn1 & Hn2).
  exists n. split; [done|].
  rewrite Forall_forall in Hn. apply Hn. by eapply list_elem_of_lookup_2.
Qed.

Lemma binder_ties_invariant_witness :
  let A := PyPrior (Obj 1) false (inject_Z 5) None in
  let o : scatterer unit :=
    Scatterer [("a_bx", A); ("c_bx", A); ("d_x", A)] (fun _ => Ok ()) in
  let b := Binder o 0%nat [("bx", ["a_bx"; "c_bx"]); ("x", ["bx"; "d_x"])] in
  let h' := [[PyPrior (CopyOf 0 (Obj 1)) false (inject_Z 5) (Some "x")]] in
  NoDup (self_ties b).*1 ∧
  Forall (fun gg => (2 ≤ length gg.2)%nat) (self_ties b) ∧
  Forall (fun q => ∃ n, name_of q = Some n ∧
                        (n ∈ (free_leaves (leaves (sorted_by_name (sc_parameters o)))).*1
                         ∨ n ∈ (self_ties b).*1))
         (h' !!! self_parameters b).
Proof.
  intros A o b h'. apply (binder_ties_invariant o [] b h'). reflexivity.
Defined.

(** ** Tying two paths next to other ties *)

Lemma find_identical_app q l1 l2 :
  find_identical q (l1 ++ l2)
  = match find_identical q l1 with
    | Some i => Some i
    | None => (fun j => length l1 + j)%nat <$> find_identical q l2
    end.
Proof.
  induction l1 as [|x l1 IH]; simpl.
  { destruct (find_identical q l2); done. }
  destruct (same_object q x); [done|]. rewrite IH.
  destruct (find_identical q l1); [done|].
  destruct (find_identical q l2); done.
Qed.

Lemma dict_get_set {V} (d : dict V) k v key :
  dict_get (dict_set d k v) key
  = if decide (key = k) then Some v else dict_get d key.
Proof.
  induction d as [|[k' v'] d IH]; simpl.
  { by destruct (decide (key = k)). }
  destruct (decide (k = k')) as [->|Hne]; simpl.
  - destruct (decide (key = k')); done.
  - destruct (decide (key = k')) as [->|].
    + by rewrite decide_False.
    + apply IH.
Qed.

Lemma with_tie_set extra (t t' : dict (list string)) new v :
  (∀ key, dict_get t key = with_tie extra t' key) →
  (∀ g grp, extra = Some (g, grp) → new ≠ g) →
  ∀ key, dict_get (dict_set t new v) key
         = with_tie extra (dict_set t' new v) key.
Proof.
  intros Ht Hnew key. rewrite dict_get_set.
  destruct extra as [[g grp]|]; simpl; rewrite ?dict_get_set.
  - destruct (decide (key = new)) as [->|].
    + rewrite decide_False; [done|]. by eapply Hnew.
    + by rewrite Ht.
  - destruct (decide (key = new)); [done|]. by rewrite Ht.
Qed.

(** [add_par] never removes a tie group. *)
Lemma add_par_ties_keys st p n k :
  k ∈ (ties st).*1 → k ∈ (ties (add_par st p n)).*1.
Proof.
  intros Hk. unfold add_par. destruct (is_Prior p); simpl; [|done].
  destruct (find_identical p (parameters st)); simpl.
  - apply dict_set_keys_incl. by right.
  - by destruct (is_Fixed p).
Qed.

Lemma add_leaves_ties_keys lv : ∀ st k,
  k ∈ (ties st).*1 → k ∈ (ties (add_leaves st lv)).*1.
Proof.
  induction lv as [|[n p] lv IH]; intros st k Hk; [done|].
  unfold add_leaves. cbn [foldl fst snd].
  fold (add_leaves (add_par st p n) lv). by apply IH, add_par_ties_keys.
Qed.

Lemma add_par_new_key st p n j :
  is_Prior p = true →
  find_identical p (parameters st) = Some j →
  tied_name (names st !!! j) n ∈ (ties (add_par st p n)).*1.
Proof.
  intros Hp Hfind. rewrite (add_par_found st p n j Hp Hfind).
  cbn [ties]. apply dict_set_keys_incl. by left.
Qed.

Lemma find_identical_Some_Prior q ps j :
  find_identical q ps = Some j → is_Prior q = true.
Proof.
  revert j. induction ps as [|x ps IH]; intros j; [done|]. simpl.
  destruct (same_object q x) eqn:Hs.
  - intros _. apply same_object_iff in Hs as [[i Hi] _].
    destruct q; try done.
  - destruct (find_identical q ps); [|done]. intros _. by eapply IH.
Qed.

(** One call of [add_par] on a leaf that is not [P] keeps the two states in
    step. *)
Lemma add_par_tracks P nm extra s s' q m :
  tracks P nm extra s s' →
  same_object q P = false →
  (∀ g grp j, extra = Some (g, grp) →
              find_identical q (parameters s') = Some j →
              tied_name (names s' !!! j) m ≠ g) →
  tracks P nm extra (add_par s q m) (add_par s' q m).
Proof.
  intros (A & B & NA & NB & Hp' & Hp & Hn' & Hn & HlA & HlB & Ht) HqP Hfresh.
  destruct (is_Prior q) eqn:Hq; last first.
  { unfold add_par. rewrite Hq. cbn [negb].
    by exists A, B, NA, NB. }
  assert (find_identical q (parameters s)
          = (fun j => if decide (j < length A)%nat then j else S j)
              <$> find_identical q (parameters s')) as Hfind.
  { rewrite Hp, Hp', !find_identical_app. simpl. rewrite HqP.
    destruct (find_identical q A) as [i|] eqn:HA.
    - simpl. apply find_identical_Some_length in HA.
      by rewrite decide_True.
    - destruct (find_identical q B) as [j|]; simpl; [|done].
      rewrite decide_False by lia. f_equal. lia. }
  destruct (find_identical q (parameters s')) as [j|] eqn:Hf'.
  - simpl in Hfind.
    assert (j < length (A ++ B))%nat as Hj.
    { rewrite <-Hp'. by eapply find_identical_Some_length. }
    rewrite length_app in Hj.
    set (j' := if decide (j < length A)%nat then j else S j) in *.
    assert (names s !!! j' = names s' !!! j) as Hold.
    { rewrite Hn, Hn'. subst j'. case_decide.
      - by rewrite !lookup_total_app_l by lia.
      - rewrite !lookup_total_app_r by lia.
        replace (S j - length NA)%nat with (S (j - length NA)) by lia.
        done. }
    rewrite (add_par_found s q m j' Hq Hfind).
    rewrite (add_par_found s' q m j Hq Hf').
    cbn zeta. rewrite Hold.
    set (new := tied_name (names s' !!! j) m).
    assert (with_tie extra (ties s') new = dict_get (ties s') new) as Hnew.
    { destruct extra as [[g grp]|]; [|done]. simpl.
      rewrite decide_False; [done|]. by eapply Hfresh. }
    rewrite Ht, Hnew.
    destruct (decide (j < length A)%nat) as [HjA|HjA].
    + exists A, B, (<[j := new]> NA), NB. subst j'.
      cbn [parameters names ties]. split_and!; try done.
      * rewrite Hn'. apply insert_app_l. lia.
      * rewrite Hn. apply insert_app_l. lia.
      * by rewrite length_insert.
      * apply with_tie_set; [done|]. intros g grp ->. by eapply Hfresh.
    + exists A, B, NA, (<[(j - length NA)%nat := new]> NB). subst j'.
      cbn [parameters names ties]. split_and!; try done.
      * rewrite Hn'. apply insert_app_r_alt. lia.
      * rewrite Hn. rewrite insert_app_r_alt by lia.
        replace (S j - length NA)%nat with (S (j - length NA)) by lia.
        done.
      * by rewrite length_insert.
      * apply with_tie_set; [done|]. intros g grp ->. by eapply Hfresh.
  - simpl in Hfind. unfold add_par. rewrite Hq, Hfind, Hf'. cbn [negb].
    destruct (is_Fixed q); [by exists A, B, NA, NB|].
    exists A, (B ++ [q]), NA, (NB ++ [m]). cbn [parameters names ties].
    split_and!; try done.
    + by rewrite Hp', app_assoc.
    + by rewrite Hp, <-app_assoc.
    + by rewrite Hn', app_assoc.
    + by rewrite Hn, <-app_assoc.
    + rewrite !length_app. cbn [length]. lia.
Qed.

(** So does the traversal of leaves none of which is [P]. *)
Lemma add_leaves_tracks P nm extra lv : ∀ s s',
  tracks P nm extra s s' →
  Forall (fun np => same_object np.2 P = false) lv →
  (∀ g grp, extra = Some (g, grp) → g ∉ (ties (add_leaves s' lv)).*1) →
  tracks P nm extra (add_leaves s lv) (add_leaves s' lv).
Proof.
  induction lv as [|[m q] lv IH]; intros s s' Htr Hall Hfresh; [done|].
  apply Forall_cons in Hall as [Hq Hall].
  unfold add_leaves in *. cbn [foldl fst snd] in *.
  fold (add_leaves (add_par s q m) lv).
  fold (add_leaves (add_par s' q m) lv) in Hfresh |- *.
  apply IH; [|done..].
  apply add_par_tracks; [done..|].
  intros g grp j -> Hfind Heq.
  apply (Hfresh g grp eq_refl).
  apply add_leaves_ties_keys. rewrite <-Heq.
  apply add_par_new_key; [|done]. by eapply find_identical_Some_Prior.
Qed.

(** A dict without repeated keys that has one key only is that entry. *)
Lemma dict_single {V} (d : dict V) g v :
  NoDup d.*1 →
  dict_get d g = Some v →
  (∀ k, k ≠ g → dict_get d k = None) →
  d = [(g, v)].
Proof.
  intros Hnd Hg Hother. destruct d as [|[k0 v0] d]; [done|].
  destruct (decide (k0 = g)) as [->|Hne].
  - simpl in Hg. rewrite decide_True in Hg by done. injection Hg as ->.
    f_equal. destruct d as [|[k1 v1] d]; [done|].
    rewrite !fmap_cons in Hnd. apply NoDup_cons in Hnd as [Hk1 _].
    cbn [fst] in Hk1. apply not_elem_of_cons in Hk1 as [Hk1 _].
    specialize (Hother k1 (not_eq_sym Hk1)). simpl in Hother.
    rewrite decide_False in Hother by done.
    by rewrite decide_True in Hother.
  - specialize (Hother k0 Hne). simpl in Hother.
    by rewrite decide_True in Hother.
Qed.

Lemma add_leaves_not_identical lv P : ∀ st,
  Forall (fun q => same_object q P = false) (parameters st) →
  Forall (fun np => same_object np.2 P = false) lv →
  Forall (fun q => same_object q P = false) (parameters (add_leaves st lv)).
Proof.
  intros st Hst Hlv. apply Forall_forall. intros q Hq.
  apply add_leaves_parameters in Hq as [Hq|Hq].
  - rewrite Forall_forall in Hst. by apply Hst.
  - apply list_elem_of_fmap in Hq as ([n p] & -> & Hin).
    apply list_elem_of_filter in Hin as [_ Hin].
    rewrite Forall_forall in Hlv. by apply (Hlv (n, p)).
Qed.

Lemma same_object_sym p q : same_object p q = same_object q p.
Proof.
  unfold same_object. destruct (ident_of p), (ident_of q); try done.
  apply bool_decide_ext. split; congruence.
Qed.

(** C1, as the code has it: when exactly two leaves [n1] and [n2] of a
    scatterer are the identical free Prior object [P], and the tie groups of
    the other leaves do not already use the name [tied_name n1 n2], the
    binder ends with the entry [tied_name n1 n2 : [n1; n2]] in [ties], next
    to the tie groups of the other leaves, which are what they are without
    [P]; [P] is one parameter, under the group's name, and the other
    parameters and names are those of the other leaves.  When nothing else
    is tied, that entry is the whole of [ties].  The group name is the
    longest common trailing substring of the two names without the
    characters [:] and [_] at its two ends; the character [.] is not removed,
    so that the paths [center_1.x] and [center_2.x] give the name [.x]. *)
Theorem C1_tie_group_name items c1 n1 P c2 n2 c3 :
  one_dimensional items →
  leaves (sorted_by_name items) = c1 ++ (n1, P) :: c2 ++ (n2, P) :: c3 →
  is_free P = true →
  Forall (fun np => same_object np.2 P = false) (c1 ++ c2 ++ c3) →
  let g := tied_name n1 n2 in
  let others := add_leaves empty (c1 ++ c2 ++ c3) in
  g ∉ (ties others).*1 →
  ∃ st, scan items = Ok st ∧
        dict_get (ties st) g = Some [n1; n2] ∧
        NoDup (ties st).*1 ∧
        (∀ k, k ≠ g → dict_get (ties st) k = dict_get (ties others) k) ∧
        (∃ i, parameters st !! i = Some P ∧ names st !! i = Some g ∧
              delete i (parameters st) = parameters others ∧
              delete i (names st) = names others) ∧
        (ties others = [] → ties st = [(g, [n1; n2])]) ∧
        (∃ s, longest_common_suffix (chars n1) (chars n2) s ∧
              trimmed (chars ":_") s (chars g)) ∧
        tied_name "center_1.x" "center_2.x" = ".x".
Proof.
  intros H1d Hlv HP Hall g others Hg.
  assert (is_Prior P = true) as HPp by by apply is_free_Prior.
  apply Forall_app in Hall as [Hc1 Hall]. apply Forall_app in Hall as [Hc2 Hc3].
  eexists. split; [by apply scan_leaves|]. rewrite Hlv.
  replace (c1 ++ (n1, P) :: c2 ++ (n2, P) :: c3)
    with (c1 ++ [(n1, P)] ++ c2 ++ [(n2, P)] ++ c3) by done.
  rewrite !add_leaves_app.
  unfold others in *. rewrite !add_leaves_app in Hg |- *.
  set (s0 := add_leaves empty c1) in *.
  assert (binder_inv s0) as Hinv0 by apply add_leaves_inv, binder_inv_empty.
  assert (Forall (fun q => same_object q P = false) (parameters s0)) as Hs0.
  { apply add_leaves_not_identical; [by constructor|done]. }
  (* the first leaf of P *)
  assert (tracks P n1 None (add_leaves s0 [(n1, P)]) s0) as Htr1.
  { unfold add_leaves, add_par. cbn [foldl fst snd]. rewrite HPp. cbn [negb].
    rewrite (proj2 (find_identical_None P (parameters s0))); last first.
    { eapply Forall_impl; [exact Hs0|]. intros q Hq.
      by rewrite same_object_sym. }
    rewrite (is_free_not_Fixed _ HP).
    exists (parameters s0), [], (names s0), [].
    cbn [parameters names ties]. rewrite !app_nil_r.
    split_and!; try done. apply Hinv0. }
  (* the leaves between the two *)
  pose proof (add_leaves_tracks P n1 None c2 _ _ Htr1 Hc2
                ltac:(intros ? ? [=])) as Htr2.
  set (s2' := add_leaves s0 c2) in *.
  set (s2 := add_leaves (add_leaves s0 [(n1, P)]) c2) in *.
  (* the second leaf of P *)
  assert (tracks P g (Some (g, [n1; n2])) (add_leaves s2 [(n2, P)]) s2')
    as Htr3.
  { destruct Htr2 as (A & B & NA & NB & Hp' & Hp & Hn' & Hn & HlA & HlB & Ht).
    assert (Forall (fun q => same_object q P = false) (A ++ B)) as HAB.
    { rewrite <-Hp'. apply add_leaves_not_identical; done. }
    apply Forall_app in HAB as [HA HB].
    assert (find_identical P (parameters s2) = Some (length A)) as Hfind.
    { rewrite Hp. apply find_identical_middle; [|by apply same_object_refl].
      eapply Forall_impl; [exact HA|]. intros q Hq.
      by rewrite same_object_sym. }
    unfold add_leaves at 1. cbn [foldl fst snd].
    rewrite (add_par_found s2 P n2 (length A) HPp Hfind). cbn zeta.
    assert (names s2 !!! length A = n1) as ->.
    { rewrite Hn, <-HlA. by rewrite (list_lookup_total_middle _ _ _ _ eq_refl). }
    fold g.
    assert (dict_get (ties s2) g = None) as ->.
    { rewrite Ht. cbn [with_tie]. apply dict_get_None_keys. intros Hin.
      apply Hg. by apply add_leaves_ties_keys. }
    cbn [default from_option id app].
    exists A, B, NA, NB. cbn [parameters names ties]. split_and!; try done.
    - rewrite Hn, <-HlA.
      rewrite <-(Nat.add_0_r (length NA)), insert_app_r. done.
    - intros key. rewrite dict_get_set. cbn [with_tie].
      destruct (decide (key = g)); [done|]. by rewrite Ht. }
  (* the leaves after the two *)
  pose proof (add_leaves_tracks P g (Some (g, [n1; n2])) c3 _ _ Htr3 Hc3)
    as Htr4.
  destruct Htr4 as (A & B & NA & NB & Hp' & Hp & Hn' & Hn & HlA & HlB & Ht).
  { intros g0 grp [= <- <-]. exact Hg. }
  split_and!.
  - rewrite Ht. cbn [with_tie]. by rewrite decide_True.
  - repeat apply add_leaves_ties_NoDup. apply NoDup_nil_2.
  - intros k Hk. rewrite Ht. cbn [with_tie]. by rewrite decide_False.
  - exists (length A). rewrite Hp, Hn, Hp', Hn'. split_and!.
    + by rewrite list_lookup_middle.
    + by rewrite list_lookup_middle.
    + apply delete_middle.
    + rewrite <-HlA. apply delete_middle.
  - intros Hnone. apply dict_single.
    + repeat apply add_leaves_ties_NoDup. apply NoDup_nil_2.
    + rewrite Ht. cbn [with_tie]. by rewrite decide_True.
    + intros k Hk. rewrite Ht. cbn [with_tie]. rewrite decide_False by done.
      by rewrite Hnone.
  - apply tied_name_spec.
  - reflexivity.
Qed.

Lemma C1_tie_group_name_witness :
  let A := PyPrior (Obj 1) false (inject_Z 1) None in
  let P := PyPrior (Obj 2) false (inject_Z 2) None in
  let g := tied_name "0:r" "1:r" in
  let others := add_leaves empty [("0:n", A); ("1:n", A)] in
  ∃ st, scan [("1:r", P); ("0:n", A); ("1:n", A); ("0:r", P)] = Ok st ∧
        dict_get (ties st) g = Some ["0:r"; "1:r"] ∧
        NoDup (ties st).*1 ∧
        (∀ k, k ≠ g → dict_get (ties st) k = dict_get (ties others) k) ∧
        (∃ i, parameters st !! i = Some P ∧ names st !! i = Some g ∧
              delete i (parameters st) = parameters others ∧
              delete i (names st) = names others) ∧
        (ties others = [] → ties st = [(g, ["0:r"; "1:r"])]) ∧
        (∃ s, longest_common_suffix (chars "0:r") (chars "1:r") s ∧
              trimmed (chars ":_") s (chars g)) ∧
        tied_name "center_1.x" "center_2.x" = ".x".
Proof.
  intros A P g others.
  apply (C1_tie_group_name [("1:r", P); ("0:n", A); ("1:n", A); ("0:r", P)]
           [("0:n", A)] "0:r" P [("1:n", A)] "1:r" []).
  - repeat constructor.
  - reflexivity.
  - reflexivity.
  - repeat constructor.
  - apply (bool_decide_unpack _). vm_compute. exact I.
Defined.

(** Two Priors, each at two leaves: both groups are recorded. *)
Example two_groups_side_by_side :
  let A := PyPrior (Obj 1) false (inject_Z 1) None in
  let P := PyPrior (Obj 2) false (inject_Z 2) None in
  scan [("1:r", P); ("0:n", A); ("1:n", A); ("0:r", P)]
  = Ok (Locals [A; P] ["n"; "r"]
               [("n", ["0:n"; "1:n"]); ("r", ["0:r"; "1:r"])]).
Proof. reflexivity. Qed.

(** Two leaves that are one Fixed object are not tied: a Fixed is compared
    with the registered parameters only, and is never registered. *)
Example fixed_leaves_are_not_tied :
  let F := PyPrior (Obj 1) true (inject_Z 1) None in
  scan [("center_1.x", F); ("center_2.x", F)] = Ok (Locals [] [] []).
Proof. reflexivity. Qed.

(** Two pairs whose names have the same common ending share one group: the
    second pair adds its later name to the group of the first. *)
Example two_pairs_under_one_name :
  let P := PyPrior (Obj 1) false (inject_Z 1) None in
  let Q := PyPrior (Obj 2) false (inject_Z 2) None in
  scan [("a:r", P); ("b:r", P); ("c:r", Q); ("d:r", Q)]
  = Ok (Locals [P; Q] ["r"; "r"] [("r", ["a:r"; "b:r"; "d:r"])]).
Proof. reflexivity. Qed.

(** ** More on [make_from] and [guess] *)

Lemma get_val_Ok_inv tie_groups values p n v :
  get_val tie_groups values p n = Ok v →
  is_free p = true → is_Some (values !! resolve tie_groups n).
Proof.
  intros Hv Hf. rewrite get_val_free in Hv by done.
  by destruct (values !! resolve tie_groups n).
Qed.

Lemma get_val_Err_inv tie_groups values p n e :
  get_val tie_groups values p n = Err e →
  is_free p = true ∧ values !! resolve tie_groups n = None ∧
  e = KeyError (resolve tie_groups n).
Proof.
  intros He. destruct (is_free p) eqn:Hf.
  - rewrite get_val_free in He by done.
    destruct (values !! resolve tie_groups n); [done|]. by injection He as <-.
  - destruct (get_val_not_free tie_groups values p n Hf) as [v Hv]. congruence.
Qed.

Lemma dict_mapM_Ok_inv {V W} (f : string → V → result W) (d : dict V) d' :
  dict_mapM f d = Ok d' → ∀ k x, (k, x) ∈ d → ∃ w, f k x = Ok w.
Proof.
  revert d'. induction d as [|[k0 x0] d IH]; intros d' Hd k x Hin.
  { by apply elem_of_nil in Hin. }
  simpl in Hd. destruct (f k0 x0) as [w|] eqn:Hf; [|done]. simpl in Hd.
  destruct (dict_mapM f d) as [rest|] eqn:Hrest; [|done].
  apply elem_of_cons in Hin as [[= -> ->]|Hin]; [by eexists|]. by eapply IH.
Qed.

Lemma dict_mapM_Err_inv {V W} (f : string → V → result W) (d : dict V) e :
  dict_mapM f d = Err e → ∃ k x, (k, x) ∈ d ∧ f k x = Err e.
Proof.
  induction d as [|[k0 x0] d IH]; intros Hd; [done|].
  simpl in Hd. destruct (f k0 x0) as [w|e0] eqn:Hf; simpl in Hd.
  - destruct (dict_mapM f d) as [rest|e1] eqn:Hrest; [done|].
    injection Hd as ->. destruct IH as (k & x & Hin & Hfx); [done|].
    exists k, x. split; [by right|done].
  - injection Hd as ->. exists k0, x0. split; [by left|done].
Qed.

Lemma dict_mapM_ext {V W} (f g : string → V → result W) (d : dict V) :
  (∀ k x, (k, x) ∈ d → f k x = g k x) → dict_mapM f d = dict_mapM g d.
Proof.
  induction d as [|[k0 x0] d IH]; intros H; [done|]. simpl.
  rewrite (H k0 x0) by by left. rewrite IH; [done|].
  intros k x Hin. apply H. by right.
Qed.

Lemma par_val_Ok_inv tie_groups values name par pv :
  par_val tie_groups values name par = Ok pv →
  ∀ n p, (n, p) ∈ leaves_of (name, par) →
         ∃ v, get_val tie_groups values p n = Ok v.
Proof.
  intros Hpv n p Hin. destruct par; simpl in Hin;
    try by apply elem_of_nil in Hin.
  - simpl in Hpv.
    destruct (dict_mapM _ items) as [vals|] eqn:Hm; [|done].
    apply list_elem_of_fmap in Hin as ([k x] & [= -> ->] & Hin).
    apply (dict_mapM_Ok_inv _ _ _ Hm k x Hin).
  - simpl in Hpv. destruct dims; [done|].
    destruct (dict_mapM _ items) as [vals|] eqn:Hm; [|done].
    apply list_elem_of_fmap in Hin as ([k x] & [= -> ->] & Hin).
    apply (dict_mapM_Ok_inv _ _ _ Hm k x Hin).
  - apply list_elem_of_singleton in Hin as [= -> ->]. by eexists.
  - simpl in Hpv.
    destruct (get_val _ _ par1 _) as [re|] eqn:H1; [|done]. simpl in Hpv.
    destruct (get_val _ _ par2 _) as [im|] eqn:H2; [|done].
    apply elem_of_cons in Hin as [[= -> ->]|Hin]; [by eexists|].
    apply list_elem_of_singleton in Hin as [= -> ->]. by eexists.
Qed.

Lemma par_val_Err_inv tie_groups values name par e :
  match par with
  | PyArray dims _ => length dims = 1%nat
  | _ => True
  end →
  par_val tie_groups values name par = Err e →
  ∃ n p, (n, p) ∈ leaves_of (name, par) ∧
         get_val tie_groups values p n = Err e.
Proof.
  intros Hdim Hpv. destruct par; simpl in Hpv; try done.
  - destruct (dict_mapM _ items) as [vals|e0] eqn:Hm; [done|].
    injection Hpv as ->.
    apply dict_mapM_Err_inv in Hm as (k & x & Hin & Hf).
    exists (name +:+ "_" +:+ k), x. split; [|done]. simpl.
    apply list_elem_of_fmap. by exists (k, x).
  - destruct dims; [done|].
    destruct (dict_mapM _ items) as [vals|e0] eqn:Hm; [done|].
    injection Hpv as ->.
    apply dict_mapM_Err_inv in Hm as (k & x & Hin & Hf).
    exists (name +:+ "_" +:+ k), x. split; [|done]. simpl.
    apply list_elem_of_fmap. by exists (k, x).
  - eexists _, _. split; [|exact Hpv]. simpl. by left.
  - destruct (get_val _ _ par1 _) as [re|e1] eqn:H1; simpl in Hpv.
    + destruct (get_val _ _ par2 _) as [im|e2] eqn:H2; [done|].
      injection Hpv as ->. eexists _, _. split; [|exact H2].
      simpl. right. by left.
    + injection Hpv as ->. eexists _, _. split; [|exact H1]. simpl. by left.
Qed.

Lemma obj_pars_from_Ok_inv tie_groups values items : ∀ acc op,
  obj_pars_from tie_groups values items acc = Ok op →
  ∀ name par, (name, par) ∈ items →
              ∃ pv, par_val tie_groups values name par = Ok pv.
Proof.
  induction items as [|[k0 x0] items IH]; intros acc op Hop name par Hin.
  { by apply elem_of_nil in Hin. }
  simpl in Hop.
  destruct (par_val tie_groups values k0 x0) as [v|] eqn:Hv; [|done].
  simpl in Hop.
  apply elem_of_cons in Hin as [[= -> ->]|Hin]; [by eexists|].
  by eapply IH.
Qed.

Lemma obj_pars_from_Err_inv tie_groups values items : ∀ acc e,
  obj_pars_from tie_groups values items acc = Err e →
  ∃ name par, (name, par) ∈ items ∧
              par_val tie_groups values name par = Err e.
Proof.
  induction items as [|[k0 x0] items IH]; intros acc e He; [done|].
  simpl in He.
  destruct (par_val tie_groups values k0 x0) as [v|e0] eqn:Hv; simpl in He.
  - apply IH in He as (name & par & Hin & Hpv).
    exists name, par. split; [by right|done].
  - injection He as ->. exists k0, x0. split; [by left|done].
Qed.

Lemma elem_of_leaves items n p :
  (n, p) ∈ leaves items ↔ ∃ item, item ∈ items ∧ (n, p) ∈ leaves_of item.
Proof.
  unfold leaves. rewrite list_elem_of_bind. split.
  - intros (item & ? & ?). by exists item.
  - intros (item & ? & ?). by exists item.
Qed.

(** X9.  [make_from] on a binder that was built succeeds in assembling the
    dict for [from_parameters] exactly when the mapping has a value under
    the resolved name of every free leaf of the scatterer; when it has not,
    the error is the [KeyError] of such a missing resolved name. *)
Theorem make_from_needs_every_free_leaf {R} (o : scatterer R) (h : lstore)
    b h' (values : gmap string pyobj) :
  init o h = Ok (b, h') →
  match obj_pars b values with
  | Ok op =>
      make_from b values = from_parameters o op ∧
      ∀ n p, (n, p) ∈ leaves (sc_parameters o) → is_free p = true →
             is_Some (values !! resolve (self_ties b) n)
  | Err e =>
      make_from b values = Err e ∧
      ∃ n p, (n, p) ∈ leaves (sc_parameters o) ∧ is_free p = true ∧
             values !! resolve (self_ties b) n = None ∧
             e = KeyError (resolve (self_ties b) n)
  end.
Proof.
  intros Hinit.
  destruct (init_Ok _ _ _ _ Hinit) as (st & Hscan & -> & ->).
  apply scan_Ok in Hscan as [H1d _].
  unfold make_from, obj_pars. cbn [self_ties obj].
  destruct (obj_pars_from (ties st) values (sc_parameters o) ∅)
    as [op|e] eqn:Hop; cbn [mbind result_bind].
  - split; [done|]. intros n p Hin Hf.
    apply elem_of_leaves in Hin as ([name par] & Hitem & Hin).
    destruct (obj_pars_from_Ok_inv _ _ _ _ _ Hop name par Hitem) as [pv Hpv].
    destruct (par_val_Ok_inv _ _ _ _ _ Hpv n p Hin) as [v Hv].
    by eapply get_val_Ok_inv.
  - split; [done|].
    apply obj_pars_from_Err_inv in Hop as (name & par & Hitem & Hpv).
    apply par_val_Err_inv in Hpv as (n & p & Hin & Hv).
    + apply get_val_Err_inv in Hv as (Hf & Hnone & ->).
      exists n, p. split_and!; try done.
      apply elem_of_leaves. by exists (name, par).
    + unfold one_dimensional in H1d. rewrite Forall_forall in H1d.
      apply (H1d _ Hitem).
Qed.

Lemma make_from_needs_every_free_leaf_witness :
  let A := PyPrior (Obj 1) false (inject_Z 5) None in
  let o : scatterer (gmap string pyobj) :=
    Scatterer [("n", PyNum (inject_Z 2)); ("r", A)] Ok in
  let b := Binder o 0%nat [] in
  let values : gmap string pyobj := {[ "n" := PyNum (inject_Z 3) ]} in
  match obj_pars b values with
  | Ok op =>
      make_from b values = from_parameters o op ∧
      ∀ n p, (n, p) ∈ leaves (sc_parameters o) → is_free p = true →
             is_Some (values !! resolve (self_ties b) n)
  | Err e =>
      make_from b values = Err e ∧
      ∃ n p, (n, p) ∈ leaves (sc_parameters o) ∧ is_free p = true ∧
             values !! resolve (self_ties b) n = None ∧
             e = KeyError (resolve (self_ties b) n)
  end.
Proof.
  intros A o b values.
  apply (make_from_needs_every_free_leaf o [] b
           [[PyPrior (CopyOf 0 (Obj 1)) false (inject_Z 5) (Some "r")]]).
  reflexivity.
Defined.

Lemma get_val_ext tie_groups v1 v2 p n :
  (is_free p = true →
   v1 !! resolve tie_groups n = v2 !! resolve tie_groups n) →
  get_val tie_groups v1 p n = get_val tie_groups v2 p n.
Proof.
  intros H. destruct (is_free p) eqn:Hf.
  - rewrite !get_val_free by done. by rewrite H.
  - unfold get_val. destruct p as [| | | | | | |i [] g nm| |]; try done.
Qed.

Lemma par_val_ext tie_groups v1 v2 name par :
  (∀ n p, (n, p) ∈ leaves_of (name, par) → is_free p = true →
          v1 !! resolve tie_groups n = v2 !! resolve tie_groups n) →
  par_val tie_groups v1 name par = par_val tie_groups v2 name par.
Proof.
  intros H. destruct par; try done; simpl.
  - erewrite dict_mapM_ext; [done|]. intros k x Hin. apply get_val_ext.
    apply (H _ x). simpl. apply list_elem_of_fmap. by exists (k, x).
  - destruct dims; [done|].
    erewrite dict_mapM_ext; [done|]. intros k x Hin. apply get_val_ext.
    apply (H _ x). simpl. apply list_elem_of_fmap. by exists (k, x).
  - apply get_val_ext. intros Hf. eapply H; [|exact Hf]. simpl. by left.
  - rewrite (get_val_ext _ v1 v2 par1); last first.
    { apply (H _ par1). simpl. by left. }
    rewrite (get_val_ext _ v1 v2 par2); [done|].
    apply (H _ par2). simpl. right. by left.
Qed.

(** X10.  [make_from] reads the mapping under the resolved names of the free
    leaves only: two mappings that agree there give the same result, so
    that entries under other names are ignored. *)
Theorem make_from_ignores_other_names {R} (b : t R)
    (values1 values2 : gmap string pyobj) :
  (∀ n p, (n, p) ∈ leaves (sc_parameters (obj b)) → is_free p = true →
          values1 !! resolve (self_ties b) n
          = values2 !! resolve (self_ties b) n) →
  make_from b values1 = make_from b values2.
Proof.
  intros H. unfold make_from, obj_pars.
  rewrite (obj_pars_from_ext _ values1 values2); [done|].
  intros name par Hin. apply par_val_ext. intros n p Hl Hf.
  apply (H n p); [|done]. apply elem_of_leaves. by exists (name, par).
Qed.

Lemma make_from_ignores_other_names_witness :
  let A := PyPrior (Obj 1) false (inject_Z 5) None in
  let o : scatterer (gmap string pyobj) :=
    Scatterer [("n", PyNum (inject_Z 2)); ("r", A)] Ok in
  let b := Binder o 0%nat [] in
  make_from b {[ "r" := PyNum (inject_Z 6); "alpha" := PyNum (inject_Z 1) ]}
  = make_from b {[ "r" := PyNum (inject_Z 6) ]}.
Proof.
  intros A o b. apply (make_from_ignores_other_names b).
  intros n p Hin Hf. vm_compute in Hin.
  apply list_elem_of_singleton in Hin as [= -> ->]. reflexivity.
Defined.

Lemma guess_round_trip_single_leaves_witness :
  let A := PyPrior (Obj 1) false (inject_Z 5) None in
  let F := PyPrior (Obj 2) true (inject_Z 3) None in
  let o : scatterer (gmap string pyobj) :=
    Scatterer [("r", A); ("z", F); ("n", PyNum (inject_Z 2))] Ok in
  let b := Binder o 0%nat [] in
  let h' := [[PyPrior (CopyOf 0 (Obj 1)) false (inject_Z 5) (Some "r")]] in
  ∃ flat, Model.guess_dict_of (h' !!! self_parameters b) = Ok flat ∧
          guess b = make_from b flat.
Proof.
  intros A F o b h'. apply (guess_round_trip_single_leaves o [] b h').
  - reflexivity.
  - apply (bool_decide_unpack _). reflexivity.
  - repeat constructor.
  - vm_compute. apply (bool_decide_unpack _). reflexivity.
Defined.

(** ** More on [limit_overlaps] *)

Lemma limit_overlaps_zero_fraction_witness :
  limit_overlaps.check (fun _ : unit => Ok (Fin (1 # 10000000)))
                       (fun _ => Ok (Fin (5 # 10000000)))
                       (Fin (inject_Z 0)) ()
  = Ok false.
Proof.
  apply (limit_overlaps_zero_fraction _ _ () (Fin (1 # 10000000))
           (Fin (5 # 10000000))); reflexivity.
Defined.

(** ** More on [get_parameter] and [_use_parameter] *)

Lemma each_key_preserves {R} (P : estate R → estate R → Prop)
    (rec : string → estate R → result pyobj * estate R)
    name keys acc st r st' :
  (∀ s, P s s) →
  (∀ s1 s2 s3, P s1 s2 → P s2 s3 → P s1 s3) →
  (∀ n s r s', rec n s = (r, s') → P s s') →
  BaseModel.each_key rec name keys acc st = (r, st') →
  P st st'.
Proof.
  intros Hrefl Htrans Hrec. revert acc st.
  induction keys as [|k keys IH]; intros acc st; simpl.
  { intros [= <- <-]. apply Hrefl. }
  destruct k; try (intros [= <- <-]; apply Hrefl).
  destruct (rec _ st) as [[v|e] st1] eqn:Hr.
  - intros Hk. eapply Htrans; [by eapply Hrec|by eapply IH].
  - intros [= <- <-]. by eapply Hrec.
Qed.

Lemma get_parameter_fuel_shrinks {R} (self : BaseModel.t R) pars fuel :
  ∀ name schema st r st',
    BaseModel.get_parameter_fuel fuel self name pars schema st = (r, st') →
    dicts st' !!! pars ⊆ dicts st !!! pars.
Proof.
  induction fuel as [|fuel IH]; intros name schema st r st' Hg; simpl in Hg.
  { by injection Hg as <- <-. }
  destruct ((dicts st !!! pars) !! name).
  { injection Hg as <- <-. cbn [dicts].
    destruct (decide (pars < length (dicts st))%nat).
    - rewrite list_lookup_total_insert, decide_True by done. apply delete_subseteq.
    - rewrite list_insert_ge by lia. done. }
  destruct (match BaseModel.attrs self !! name with
            | Some PyNone | None => None
            | Some v => Some v
            end).
  { by injection Hg as <- <-. }
  destruct (BaseModel.attrs self !! (name +:+ "_names")) as [names|].
  - destruct (BaseModel.py_iter names) as [keys|].
    + revert Hg.
      apply (each_key_preserves
               (fun s s' => dicts s' !!! pars ⊆ dicts s !!! pars)).
      * done.
      * intros s1 s2 s3 H12 H23. by etrans.
      * intros n s r' s'. apply IH.
    + by injection Hg as <- <-.
  - destruct schema as [sch|]; [destruct (da_attrs sch !! name)|];
      by injection Hg as <- <-.
Qed.

(** X14.  [get_parameter] never adds to the flat mapping and touches nothing
    else: after a call, the dict at [pars] is a sub-dict of what it was (the
    names that were found in it are removed), every other dict of the store
    is as before, and no calculation has been called. *)
Theorem get_parameter_only_removes {R} (self : BaseModel.t R) (name : string)
    (pars : loc) (schema : option DataArray) (st : estate R) :
  let st' := (BaseModel.get_parameter self name pars schema st).2 in
  dicts st' !!! pars ⊆ dicts st !!! pars ∧
  length (dicts st') = length (dicts st) ∧
  (∀ l, l ≠ pars → dicts st' !! l = dicts st !! l) ∧
  calls st' = calls st.
Proof.
  intros st'. subst st'.
  destruct (BaseModel.get_parameter self name pars schema st) as [r st']
    eqn:Hg. cbn [snd].
  pose proof (get_parameter_frame _ _ _ _ _ _ _ Hg) as (Hc & Hl & Ho).
  split_and!; try done.
  by eapply get_parameter_fuel_shrinks.
Qed.












(** ** More on [Model] *)

Lemma get_parameter_shrinks {R} (self : BaseModel.t R) name pars schema st r st' :
  BaseModel.get_parameter self name pars schema st = (r, st') →
  dicts st' !!! pars ⊆ dicts st !!! pars.
Proof. apply get_parameter_fuel_shrinks. Qed.

(** What [_optics_scatterer] returns: the three optics values under their
    names, and the scatterer that [make_from] builds from what the lookups
    have left of the flat mapping. *)
Lemma optics_scatterer_Ok {R} (self : BaseModel.t R) pars schema st optics s st' :
  BaseModel.optics_scatterer self pars schema st = (Ok (optics, s), st') →
  dicts st' !!! pars ⊆ dicts st !!! pars ∧
  make_from (BaseModel.scatterer self) (dicts st' !!! pars) = Ok s ∧
  optics.*1 = ["medium_index"; "illum_wavelen"; "illum_polarization"].
Proof.
  unfold BaseModel.optics_scatterer.
  destruct (BaseModel.get_parameter self "medium_index" pars schema st)
    as [[v1|e1] st1] eqn:H1; [|done].
  destruct (BaseModel.get_parameter self "illum_wavelen" pars schema st1)
    as [[v2|e2] st2] eqn:H2; [|done].
  destruct (BaseModel.get_parameter self "illum_polarization" pars schema st2)
    as [[v3|e3] st3] eqn:H3; [|done].
  apply get_parameter_shrinks in H1, H2, H3.
  destruct (make_from _ _) as [s'|] eqn:Hm; [|done].
  intros [= <- <- <-]. split_and!; [|done..].
  etrans; [exact H3|]. by etrans.
Qed.

(** X16.  One evaluation of [residual] calls the scattering calculation at
    most once.  When the preparation of [_calc] succeeds, the scatterer it
    returns is the one [make_from] builds from what is left of the copy of
    the flat mapping, a part of the caller's mapping; the calculation is
    called exactly when every constraint accepts that scatterer and the
    instance has a [theory], once, on that scatterer, with the scaling and
    the optics of the preparation, the model's [theory] and the observed
    data as the schema.  When the preparation raises, or a constraint rejects
    the scatterer or raises, the calculation is not called. *)
Theorem residual_calls_at_most_once {R} (self : Model.t R) (pars : loc)
    (observed : DataArray) (st : estate R) :
  let st' := (Model.residual self pars observed st).2 in
  match Model.prepare self pars observed st with
  | (Ok (alpha, optics, s), st0) =>
      let rest := dicts st0 !!! length (dicts st) in
      rest ⊆ dicts st !!! pars ∧
      make_from (BaseModel.scatterer (Model.base self)) rest = Ok s ∧
      optics.*1 = ["medium_index"; "illum_wavelen"; "illum_polarization"] ∧
      match Model.all_valid true (BaseModel.constraints (Model.base self)) s,
            BaseModel.attrs (Model.base self) !! "theory" with
      | Ok true, Some theory =>
          calls st' = calls st ++ [Call observed s alpha theory optics]
      | _, _ => calls st' = calls st
      end
  | (Err _, _) => calls st' = calls st
  end.
Proof.
  intros st'. subst st'. unfold Model.residual, Model.calc.
  destruct (Model.prepare self pars observed st)
    as [[[[alpha optics] s]|e] st0] eqn:Hp;
    pose proof (prepare_frame _ _ _ _ _ _ Hp) as [Hc _]; [|done].
  assert (dicts st0 !!! length (dicts st) ⊆ dicts st !!! pars ∧
          make_from (BaseModel.scatterer (Model.base self))
            (dicts st0 !!! length (dicts st)) = Ok s ∧
          optics.*1 = ["medium_index"; "illum_wavelen"; "illum_polarization"])
    as (Hsub & Hmk & Hopt).
  { revert Hp. unfold Model.prepare, Model.copy.
    set (st1 := EState (dicts st ++ [dicts st !!! pars]) (calls st)).
    destruct (BaseModel.get_parameter (Model.base self) "alpha"
                (length (dicts st)) None st1) as [ra st2] eqn:Ha.
    apply get_parameter_shrinks in Ha.
    assert (dicts st1 !!! length (dicts st) = dicts st !!! pars) as Hst1.
    { subst st1. cbn [dicts].
      by rewrite (list_lookup_total_middle _ _ _ _ eq_refl). }
    rewrite Hst1 in Ha.
    assert (∀ a,
              match BaseModel.optics_scatterer (Model.base self)
                      (length (dicts st)) (Some observed) st2 with
              | (Err e, st3) => (Err e, st3)
              | (Ok (optics, scatterer), st3) =>
                  (Ok (a, optics, scatterer), st3)
              end = (Ok (alpha, optics, s), st0) →
              dicts st0 !!! length (dicts st) ⊆ dicts st !!! pars ∧
              make_from (BaseModel.scatterer (Model.base self))
                (dicts st0 !!! length (dicts st)) = Ok s ∧
              optics.*1
              = ["medium_index"; "illum_wavelen"; "illum_polarization"])
      as Hrest.
    { intros a.
      destruct (BaseModel.optics_scatterer _ _ _ st2)
        as [[[o s']|e] st3] eqn:Ho; [|done].
      intros [= -> -> -> ->].
      apply optics_scatterer_Ok in Ho as (Hs & Hm & Hk).
      split_and!; [by etrans|done..]. }
    destruct ra as [a|e]; [apply Hrest|].
    destruct e; try done. apply Hrest. }
  cbn zeta. split_and!; [done..|].
  destruct (Model.all_valid true _ s) as [[]|].
  all: try destruct (BaseModel.attrs (Model.base self) !! "theory")
         as [theory|].
  all: try destruct (Model.calc_func self observed s alpha theory optics)
         as [a|].
  all: try destruct (arr_sub _ _).
  all: cbn [snd calls]; try done.
  all: by rewrite Hc.
Qed.

(** On the sample model and the trial point [{'r': 6e-7}]: one call, on the
    sphere of that radius, with the scaling 1 and the optics of the data. *)
Example residual_calls_on_sample :
  calls (Model.residual (sample_model [] zeros_calc) 0%nat sample_data
           sample_state).2
  = [Call sample_data
       {[ "n" := PyNum (159 # 100); "r" := PyNum (6 # 10000000) ]}
       (PyNum (inject_Z 1)) (PyStr "auto")
       [("medium_index", PyNum (133 # 100));
        ("illum_wavelen", PyNum (66 # 100));
        ("illum_polarization", PyList [PyNum (inject_Z 1); PyNum (inject_Z 0)])]].
Proof. vm_compute. reflexivity. Qed.

(** X17.  The scaling that [_calc] passes on: when the instance records no
    sub-keys for [alpha], it is the entry [alpha] of the flat mapping if
    there is one, else the attribute [alpha] of the instance if it is not
    [None], else 1; the schema is never asked for it. *)
Theorem prepare_scaling {R} (self : Model.t R) (pars : loc)
    (schema : DataArray) (st : estate R) alpha optics s st' :
  Model.prepare self pars schema st = (Ok (alpha, optics, s), st') →
  BaseModel.attrs (Model.base self) !! "alpha_names" = None →
  alpha = match (dicts st !!! pars) !! "alpha" with
          | Some v => v
          | None =>
              match BaseModel.attrs (Model.base self) !! "alpha" with
              | Some PyNone | None => PyNum (inject_Z 1)
              | Some v => v
              end
          end.
Proof.
  unfold Model.prepare, Model.copy, BaseModel.get_parameter.
  cbn [BaseModel.get_parameter_fuel dicts calls]. intros Hp Hnames.
  rewrite (list_lookup_total_middle _ _ _ _ eq_refl) in Hp.
  change ("alpha" +:+ "_names") with "alpha_names" in Hp.
  rewrite Hnames in Hp.
  destruct ((dicts st !!! pars) !! "alpha") as [v|].
  { destruct (BaseModel.optics_scatterer _ _ _ _) as [[[o1 s1]|] st1];
      congruence. }
  destruct (BaseModel.attrs (Model.base self) !! "alpha") as [v|].
  - destruct v;
      destruct (BaseModel.optics_scatterer _ _ _ _) as [[[o1 s1]|] st1] in Hp;
      congruence.
  - destruct (BaseModel.optics_scatterer _ _ _ _) as [[[o1 s1]|] st1] in Hp;
      congruence.
Qed.

Lemma prepare_scaling_witness :
  PyNum (7 # 10)
  = match (dicts (EState (R:=gmap string pyobj)
                    [{[ "r" := PyNum (6 # 10000000);
                        "alpha" := PyNum (7 # 10) ]}] [])
           !!! 0%nat) !! "alpha" with
    | Some v => v
    | None =>
        match BaseModel.attrs (Model.base (sample_model [] zeros_calc))
              !! "alpha" with
        | Some PyNone | None => PyNum (inject_Z 1)
        | Some v => v
        end
    end.
Proof.
  eapply (prepare_scaling (sample_model [] zeros_calc) 0%nat sample_data).
  - reflexivity.
  - reflexivity.
Defined.
